(** * mDNS proxy: relay decision and forwarding

    A shallow embedding of [mdns_proxy.py]: the per-packet classification
    loop of [MDNSProxy.start], the send loop of [MDNSAgency.start], and the
    part of Python's [ipaddress] module the two rely on.

    IPv4 addresses are the 32-bit integers that [ipaddress] parses dotted
    quads into, held in [Z].  Payloads are byte lists.  Socket calls and log
    lines are recorded in a trace; whether a socket call raises is decided by
    an environment oracle that sees the trace so far. *)

From Stdlib Require Import ZArith List Bool Lia.
From Stdlib Require Import Init.Byte.
Import ListNotations.
Open Scope Z_scope.

(** ** The [ipaddress] library, as far as the proxy uses it *)

Module ipaddress.

Definition _ALL_ONES : Z := 2 ^ 32 - 1.
Definition _max_prefixlen : Z := 32.

(** [int.bit_length()] *)
Definition bit_length (n : Z) : Z :=
  if n =? 0 then 0 else Z.log2 (Z.abs n) + 1.

(** [_count_righthand_zero_bits(number, bits)]:
    [min(bits, (~number & (number - 1)).bit_length())], and [bits] at 0. *)
Definition _count_righthand_zero_bits (number bits : Z) : Z :=
  if number =? 0 then bits
  else Z.min bits (bit_length (Z.land (Z.lnot number) (number - 1))).

(** [_ip_int_from_prefix(prefixlen)] *)
Definition _ip_int_from_prefix (prefixlen : Z) : Z :=
  Z.lxor _ALL_ONES (Z.shiftr _ALL_ONES prefixlen).

(** [_prefix_from_ip_int(ip_int)]; [None] is its [ValueError]. *)
Definition _prefix_from_ip_int (ip_int : Z) : option Z :=
  let trailing_zeroes := _count_righthand_zero_bits ip_int _max_prefixlen in
  let prefixlen := _max_prefixlen - trailing_zeroes in
  let leading_ones := Z.shiftr ip_int trailing_zeroes in
  let all_ones := Z.shiftl 1 prefixlen - 1 in
  if leading_ones =? all_ones then Some prefixlen else None.

(** A mask argument is a string: either decimal digits (a prefix length)
    or a dotted quad (a netmask or a hostmask), given here parsed. *)
Inductive mask_arg : Type :=
| prefix_string (n : Z)
| ip_string (ip_int : Z).

(** [_prefix_from_prefix_string] *)
Definition _prefix_from_prefix_string (n : Z) : option Z :=
  if (0 <=? n) && (n <=? _max_prefixlen) then Some n else None.

(** [_prefix_from_ip_string]: the quad is tried as a netmask, then, with
    all bits flipped, as a hostmask. *)
Definition _prefix_from_ip_string (ip_int : Z) : option Z :=
  match _prefix_from_ip_int ip_int with
  | Some p => Some p
  | None => _prefix_from_ip_int (Z.lxor ip_int _ALL_ONES)
  end.

(** [_make_netmask(arg)]: the netmask and the prefix length; [None] is
    [NetmaskValueError]. *)
Definition _make_netmask (arg : mask_arg) : option (Z * Z) :=
  match
    match arg with
    | prefix_string n => _prefix_from_prefix_string n
    | ip_string ip_int => _prefix_from_ip_string ip_int
    end
  with
  | Some prefixlen => Some (_ip_int_from_prefix prefixlen, prefixlen)
  | None => None
  end.

Record IPv4Network : Type := {
  network_address : Z;
  netmask : Z;
  _prefixlen : Z
}.

(** [IPv4Network((addr, mask), strict=False)]: host bits are cleared
    rather than rejected. *)
Definition IPv4Network_of (addr : Z) (mask : mask_arg) : option IPv4Network :=
  match _make_netmask mask with
  | Some (nm, p) =>
      Some {| network_address := Z.land addr nm; netmask := nm; _prefixlen := p |}
  | None => None
  end.

(** [IPv4Network(addr, strict=False)] on an address string without a
    slash: the mask defaults to the prefix length 32. *)
Definition IPv4Network_host (addr : Z) : option IPv4Network :=
  IPv4Network_of addr (prefix_string _max_prefixlen).

(** [_BaseNetwork.__eq__]: same network address and same netmask (the
    version is 4 on both sides). *)
Definition network_eqb (a b : IPv4Network) : bool :=
  (network_address a =? network_address b) && (netmask a =? netmask b).

(** A dotted quad [a.b.c.d] as the integer it parses to. *)
Definition quad (a b c d : Z) : Z :=
  Z.lor (Z.lor (Z.lor (Z.shiftl a 24) (Z.shiftl b 16)) (Z.shiftl c 8)) d.

End ipaddress.

(** ** Exceptions, effects and the world *)

Definition bytes : Type := list byte.

(** The exceptions that can cross the code: [socket.timeout], any other
    [OSError] of a socket call, and [ipaddress.NetmaskValueError]. *)
Inductive exn : Type :=
| socket_timeout
| OSError
| NetmaskValueError.

Inductive result (A : Type) : Type :=
| Ok (a : A)
| Raise (e : exn).
Arguments Ok {A} a.
Arguments Raise {A} e.

(** What the program does to the outside: socket calls and log lines. *)
Inductive call : Type :=
| sock_socket
| sock_setsockopt_REUSEADDR
| sock_setsockopt_MULTICAST_TTL (ttl : Z)
| sock_setsockopt_ADD_MEMBERSHIP (group ip : Z)
| sock_bind (ip port : Z)
| sock_settimeout (t : Z)
| sock_sendto (data : bytes) (ip port : Z)
| sock_close
| log_SEND (ip target port : Z) (data : bytes)
| log_RECV (src sport : Z) (data : bytes).

(** A trace entry is a call with the exception it raised, if any. *)
Definition event : Type := (call * option exn)%type.

(** One record of the configuration list [interfaces]. *)
Record interface : Type := {
  ip : Z;
  mask : ipaddress.mask_arg;
  forwardto : list Z;
  reverse : bool
}.

(** The world: the list object the proxy's [_interfaces] attribute refers
    to, the trace of calls made so far, and the environment's oracle, which
    says for a trace and a call whether the call raises. *)
Record world : Type := {
  interfaces : list interface;
  trace : list event;
  oracle : list event -> call -> option exn
}.

Definition M (A : Type) : Type := world -> result A * world.

Definition ret {A} (a : A) : M A := fun w => (Ok a, w).

Definition raise {A} (e : exn) : M A := fun w => (Raise e, w).

Definition bind {A B} (m : M A) (k : A -> M B) : M B :=
  fun w =>
    match m w with
    | (Ok a, w') => k a w'
    | (Raise e, w') => (Raise e, w')
    end.

Notation "x <- m ;; k" := (bind m (fun x => k))
  (at level 61, m at next level, right associativity).
Notation "m ;; k" := (bind m (fun _ => k))
  (at level 61, right associativity).

(** [try: m except e: h e] *)
Definition try_except {A} (m : M A) (h : exn -> M A) : M A :=
  fun w =>
    match m w with
    | (Ok a, w') => (Ok a, w')
    | (Raise e, w') => h e w'
    end.

(** [try: m finally: f] *)
Definition try_finally {A} (m : M A) (f : M unit) : M A :=
  fun w =>
    match m w with
    | (r, w') =>
        match f w' with
        | (Ok _, w'') => (r, w'')
        | (Raise e, w'') => (Raise e, w'')
        end
    end.

Definition record (e : event) (w : world) : world :=
  {| interfaces := interfaces w; trace := trace w ++ [e]; oracle := oracle w |}.

(** A socket call: the oracle decides whether it raises; it is recorded
    either way. *)
Definition sys (c : call) : M unit :=
  fun w =>
    let r := oracle w (trace w) c in
    (match r with None => Ok tt | Some e => Raise e end, record (c, r) w).

(** A call that does not raise: a log line, or closing the socket. *)
Definition emit (c : call) : M unit :=
  fun w => (Ok tt, record (c, None) w).

(** The result of a pure, fallible computation of [ipaddress]. *)
Definition lift {A} (o : option A) : M A :=
  match o with
  | Some a => ret a
  | None => raise NetmaskValueError
  end.

Definition get_interfaces : M (list interface) :=
  fun w => (Ok (interfaces w), w).

(** [with socket.socket(...) as sock: body]: the socket is closed on the
    way out, also when [body] raises. *)
Definition with_socket {A} (body : M A) : M A :=
  sys sock_socket ;; try_finally body (emit sock_close).

(** What one [recvfrom] gives: [(data, (address, port))]. *)
Record packet : Type := {
  payload : bytes;
  source_address : Z;
  source_port : Z
}.

(** ** [class MDNSAgency] *)

Module MDNSAgency.

Record t : Type := {
  _ip : Z;
  _forwardto : list Z;
  _data : packet;
  _port : Z;
  _timeout : Z;
  _buffer_size : Z
}.

(** [for ip in self._forwardto: if request_address != IPv4Network(ip): ...] *)
Fixpoint for_forwardto (self : t) (request_address : ipaddress.IPv4Network)
         (targets : list Z) : M unit :=
  match targets with
  | [] => ret tt
  | ip :: rest =>
      net <- lift (ipaddress.IPv4Network_host ip) ;;
      (if negb (ipaddress.network_eqb request_address net) then
         sys (sock_sendto (payload (_data self)) ip (_port self)) ;;
         emit (log_SEND (_ip self) ip (_port self) (payload (_data self)))
       else ret tt) ;;
      for_forwardto self request_address rest
  end.

Definition start (self : t) : M unit :=
  with_socket
    (sys sock_setsockopt_REUSEADDR ;;
     sys (sock_setsockopt_MULTICAST_TTL 1) ;;
     sys (sock_bind (_ip self) (_port self)) ;;
     sys (sock_settimeout (_timeout self)) ;;
     request_address <-
       lift (ipaddress.IPv4Network_host (source_address (_data self))) ;;
     for_forwardto self request_address (_forwardto self)).

End MDNSAgency.

(** ** [class MDNSProxy] *)

Module MDNSProxy.

Import ipaddress.

(** The attributes other than [_interfaces], which is a reference to the
    list held in the world. *)
Record t : Type := {
  _port : Z;
  _multicast : Z;
  _timeout : Z;
  _buffer_size : Z
}.

(** The three variables of one loop iteration. *)
Record locals : Type := {
  local_network : bool;
  same_address : bool;
  agencies : list MDNSAgency.t
}.

Definition locals_init : locals :=
  {| local_network := false; same_address := false; agencies := [] |}.

Definition new_agency (self : t) (recieve : packet) (i : interface) : MDNSAgency.t :=
  {| MDNSAgency._ip := ip i;
     MDNSAgency._forwardto := forwardto i;
     MDNSAgency._data := recieve;
     MDNSAgency._port := _port self;
     MDNSAgency._timeout := _timeout self;
     MDNSAgency._buffer_size := _buffer_size self |}.

Notation "'let?' x ':=' o 'in' k" :=
  (match o with Some x => k | None => None end)
  (at level 10, x name, o at level 100, k at level 200, only parsing).

Definition host_mask : mask_arg := ip_string (quad 255 255 255 255).

(** [for interface in self._interfaces: ...], with its [break]; [None] is
    a [NetmaskValueError] leaving the loop. *)
Fixpoint for_interfaces (self : t) (recieve : packet) (ifs : list interface)
         (l : locals) : option locals :=
  match ifs with
  | [] => Some l
  | i :: rest =>
      let? net1 := IPv4Network_of (ip i) host_mask in
      let? net2 := IPv4Network_of (source_address recieve) host_mask in
      if network_address net1 =? network_address net2 then
        Some {| local_network := local_network l;
                same_address := true;
                agencies := agencies l |}
      else
        let? net1 := IPv4Network_of (ip i) (mask i) in
        let? net2 := IPv4Network_of (source_address recieve) (mask i) in
        let hit := network_address net1 =? network_address net2 in
        let add_agency := if hit then reverse i else true in
        for_interfaces self recieve rest
          {| local_network := if hit then true else local_network l;
             same_address := same_address l;
             agencies :=
               if add_agency
               then agencies l ++ [new_agency self recieve i]
               else agencies l |}
  end.

(** [for agency in agencies: agency.start()] *)
Fixpoint for_agencies (ags : list MDNSAgency.t) : M unit :=
  match ags with
  | [] => ret tt
  | agency :: rest => MDNSAgency.start agency ;; for_agencies rest
  end.

(** The body of the [try] after [recvfrom] has returned. *)
Definition handle (self : t) (recieve : packet) : M unit :=
  ifs <- get_interfaces ;;
  l <- lift (for_interfaces self recieve ifs locals_init) ;;
  if local_network l && negb (same_address l) then
    emit (log_RECV (source_address recieve) (source_port recieve)
                   (payload recieve)) ;;
    for_agencies (agencies l)
  else ret tt.

(** What [sock.recvfrom] does in one iteration: it returns a datagram or
    raises ([socket.timeout] when the wait expires). *)
Inductive recvfrom_result : Type :=
| datagram (recieve : packet)
| raises (e : exn).

Definition recvfrom (r : recvfrom_result) : M packet :=
  match r with
  | datagram recieve => ret recieve
  | raises e => raise e
  end.

(** One turn of [while True]: [try: ... except socket.timeout: pass]. *)
Definition iteration (self : t) (r : recvfrom_result) : M unit :=
  try_except
    (recieve <- recvfrom r ;; handle self recieve)
    (fun e => match e with
              | socket_timeout => ret tt
              | _ => raise e
              end).

(** [while True], run on the results of the successive [recvfrom] calls.
    [Ok tt] says that the loop is still running, waiting for the next
    one; [Raise e] that [e] left the loop. *)
Fixpoint while_True (self : t) (rs : list recvfrom_result) : M unit :=
  match rs with
  | [] => ret tt
  | r :: rest => iteration self r ;; while_True self rest
  end.

Fixpoint join_groups (self : t) (ifs : list interface) : M unit :=
  match ifs with
  | [] => ret tt
  | i :: rest =>
      sys (sock_setsockopt_ADD_MEMBERSHIP (_multicast self) (ip i)) ;;
      join_groups self rest
  end.

(** [start]: the socket is closed only when an exception leaves the
    [with] block, as the loop has no other exit. *)
Definition start (self : t) (rs : list recvfrom_result) : M unit :=
  sys sock_socket ;;
  try_except
    (sys sock_setsockopt_REUSEADDR ;;
     sys (sock_bind 0 (_port self)) ;;
     ifs <- get_interfaces ;;
     join_groups self ifs ;;
     sys (sock_settimeout (_timeout self)) ;;
     while_True self rs)
    (fun e => emit sock_close ;; raise e).

(** [MDNSProxy(interfaces)] with the default arguments. *)
Definition default : t :=
  {| _port := 5353; _multicast := quad 224 0 0 251;
     _timeout := 5; _buffer_size := 4096 |}.

End MDNSProxy.

(** ** Reading a trace *)

(** [w] after the events [new] have been recorded. *)
Definition extend (w : world) (new : list event) : world :=
  {| interfaces := interfaces w; trace := trace w ++ new; oracle := oracle w |}.

(** The datagrams that went out: the [sendto] calls that did not raise, as
    [(data, target, port)]. *)
Definition datagrams (tr : list event) : list (bytes * Z * Z) :=
  flat_map (fun ev =>
              match ev with
              | (sock_sendto data target port, None) => [(data, target, port)]
              | _ => []
              end) tr.

(** The targets of all [sendto] calls, raised or not. *)
Definition attempts (tr : list event) : list Z :=
  flat_map (fun ev =>
              match fst ev with
              | sock_sendto _ target _ => [target]
              | _ => []
              end) tr.

(** ** The classification, said directly *)

(** The source lies in the interface's subnet: both addresses, cut by the
    interface's netmask, give the same network address (lines 120-124). *)
Definition subnet_match (src : Z) (i : interface) : bool :=
  match ipaddress._make_netmask (mask i) with
  | Some (nm, _) => Z.land (ip i) nm =? Z.land src nm
  | None => false
  end.

(** The source is the interface's own address (lines 114-116). *)
Definition own_address (src : Z) (i : interface) : bool :=
  Z.land (ip i) ipaddress._ALL_ONES =? Z.land src ipaddress._ALL_ONES.

(** Conditions (a) and (b) under which an interface gets an agency. *)
Definition eligible (src : Z) (i : interface) : bool :=
  negb (subnet_match src i) || (subnet_match src i && reverse i).

Definition valid_mask (i : interface) : Prop :=
  ipaddress._make_netmask (mask i) <> None.

Definition is_address (a : Z) : Prop := 0 <= a < 2 ^ 32.

(** The accept test of line 135 and the agencies that are then started. *)
Definition accepted (l : MDNSProxy.locals) : bool :=
  MDNSProxy.local_network l && negb (MDNSProxy.same_address l).

Definition executed (l : MDNSProxy.locals) : list MDNSAgency.t :=
  if accepted l then MDNSProxy.agencies l else [].

(** ** The two-phase classification of the specification

    Same-address is evaluated over all interfaces first; the subnet logic
    runs afterwards and is skipped when same-address was set. *)

Module TwoPhase.

Record classification : Type := {
  same_address : bool;
  local_network : bool;
  forward_set : list interface
}.

(** The source, masked by the interface's own mask, compared to the
    interface's network address. *)
Definition in_subnet (src : Z) (i : interface) : bool :=
  match ipaddress._make_netmask (mask i) with
  | Some (nm, _) => Z.land src nm =? Z.land (ip i) nm
  | None => false
  end.

(** (a) the subnet does not match, or (b) it does and [reverse] is set. *)
Definition forward_eligible (src : Z) (i : interface) : bool :=
  negb (in_subnet src i) || (in_subnet src i && reverse i).

(** Phase 1: same-address, over all interfaces. *)
Definition phase1 (src : Z) (ifs : list interface) : bool :=
  existsb (fun i => ip i =? src) ifs.

(** Phase 2: the subnet logic, over all interfaces. *)
Definition phase2 (src : Z) (ifs : list interface) : bool * list interface :=
  (existsb (in_subnet src) ifs, filter (forward_eligible src) ifs).

Definition classify (src : Z) (ifs : list interface) : classification :=
  if phase1 src ifs then
    {| same_address := true; local_network := false; forward_set := [] |}
  else
    let '(local, fwd) := phase2 src ifs in
    {| same_address := false; local_network := local; forward_set := fwd |}.

Definition accepted (c : classification) : bool :=
  local_network c && negb (same_address c).

Definition executed (c : classification) : list interface :=
  if accepted c then forward_set c else [].

End TwoPhase.

(** ** Vocabulary for the statements *)

(** The result of a socket call on which the oracle answered [o]. *)
Definition outcome (o : option exn) : result unit :=
  match o with None => Ok tt | Some e => Raise e end.

(** From every world in [E], [m] ends with a result and new events that
    satisfy [Q]. *)
Definition tri (E : world -> Prop) {A} (m : M A)
           (Q : result A -> list event -> Prop) : Prop :=
  forall w, E w -> exists r new, m w = (r, extend w new) /\ Q r new.

(** From every world in [E], [m] ends with the same result and the same new
    events. *)
Definition det (E : world -> Prop) {A} (m : M A) : Prop :=
  exists r new, forall w, E w -> m w = (r, extend w new).

(** The target's /32 network equals the source's /32 network (line 80). *)
Definition same_host_network (src target : Z) : bool :=
  match ipaddress.IPv4Network_host src, ipaddress.IPv4Network_host target with
  | Some a, Some b => ipaddress.network_eqb a b
  | _, _ => false
  end.

Definition any_world : world -> Prop := fun _ => True.

(** A call that did not raise. *)
Definition quiet (ev : event) : Prop := snd ev = None.

(** The socket being closed. *)
Definition closing (ev : event) : Prop := ev = (sock_close, None).

(** After a call has raised, nothing but closing the socket follows, and
    the exception raised is the one that comes out. *)
Definition good {A} (r : result A) (new : list event) : Prop :=
  match r with
  | Ok _ => Forall quiet new
  | Raise e =>
      Forall quiet new \/
      exists pre c post,
        new = pre ++ (c, Some e) :: post /\ Forall quiet pre /\ Forall closing post
  end.

(** A [sendto] carries the received payload to the proxy's port, and its
    target is not the source, taken as a /32 network. *)
Definition sendto_ok (recieve : packet) (port : Z) (ev : event) : Prop :=
  match fst ev with
  | sock_sendto data target p =>
      data = payload recieve /\ p = port /\
      same_host_network (source_address recieve) target = false
  | _ => True
  end.

(** What holds of the result and the new events of every step of handling
    [recieve]. *)
Definition inv (recieve : packet) (port : Z) {A} (r : result A)
           (new : list event) : Prop :=
  Forall (sendto_ok recieve port) new /\ good r new.

(** No socket call raises in [w], now or later. *)
Definition no_faults (w : world) : Prop := forall h c, oracle w h c = None.

(** What an agency's send loop records for one target when nothing
    raises. *)
Definition send_events (self : MDNSAgency.t) (target : Z) : list event :=
  let data := payload (MDNSAgency._data self) in
  if same_host_network (source_address (MDNSAgency._data self)) target then []
  else [(sock_sendto data target (MDNSAgency._port self), None);
        (log_SEND (MDNSAgency._ip self) target (MDNSAgency._port self) data, None)].

(** What an agency's [start] records when nothing raises. *)
Definition start_events (self : MDNSAgency.t) : list event :=
  [(sock_socket, None);
   (sock_setsockopt_REUSEADDR, None);
   (sock_setsockopt_MULTICAST_TTL 1, None);
   (sock_bind (MDNSAgency._ip self) (MDNSAgency._port self), None);
   (sock_settimeout (MDNSAgency._timeout self), None)]
  ++ flat_map (send_events self) (MDNSAgency._forwardto self)
  ++ [(sock_close, None)].

(** The environment answers a call the same way whatever came before. *)
Definition stable (w : world) : Prop :=
  forall h1 h2 c, oracle w h1 c = oracle w h2 c.

(** The worlds with oracle [o] and interface list [ifs]. *)
Definition same_env (o : list event -> call -> option exn)
           (ifs : list interface) (w : world) : Prop :=
  oracle w = o /\ interfaces w = ifs.

(** The flags and the forward set as pairs of an interface address and its
    targets. *)
Definition decision (l : MDNSProxy.locals) : bool * bool * list (Z * list Z) :=
  (MDNSProxy.same_address l, MDNSProxy.local_network l,
   map (fun a => (MDNSAgency._ip a, MDNSAgency._forwardto a)) (MDNSProxy.agencies l)).

(** The targets the agencies of a packet from [src] send to. *)
Definition destinations (src : Z) (fwd : list (Z * list Z)) : list Z :=
  flat_map (fun pr => filter (fun t => negb (same_host_network src t)) (snd pr)) fwd.

(** ** The scenarios of the specification *)

Module Scenario.

Import ipaddress.

(** Interface A: 10.0.0.5/8, forwards to 10.0.0.1. *)
Definition A : interface :=
  {| ip := quad 10 0 0 5; mask := ip_string (quad 255 0 0 0);
     forwardto := [quad 10 0 0 1]; reverse := false |}.

(** Interface B: 192.168.1.5/24, forwards to the multicast group. *)
Definition B : interface :=
  {| ip := quad 192 168 1 5; mask := ip_string (quad 255 255 255 0);
     forwardto := [quad 224 0 0 251]; reverse := false |}.

(** A world in which no socket call raises. *)
Definition calm (ifs : list interface) : world :=
  {| interfaces := ifs; trace := []; oracle := fun _ _ => None |}.

(** A with a second forward target. *)
Definition A2 : interface :=
  {| ip := quad 10 0 0 5; mask := ip_string (quad 255 0 0 0);
     forwardto := [quad 10 0 0 1; quad 10 0 0 2]; reverse := false |}.

(** Interface C: 172.16.0.5/24, forwards to 172.16.0.1. *)
Definition C : interface :=
  {| ip := quad 172 16 0 5; mask := ip_string (quad 255 255 255 0);
     forwardto := [quad 172 16 0 1]; reverse := false |}.

(** A world in which every [sendto] to [target] raises [e] and no other
    call raises. *)
Definition failing (target : Z) (e : exn) (ifs : list interface) : world :=
  {| interfaces := ifs; trace := [];
     oracle := fun _ c =>
                 match c with
                 | sock_sendto _ t _ => if t =? target then Some e else None
                 | _ => None
                 end |}.

Definition from (src : Z) (data : bytes) (sport : Z) : packet :=
  {| payload := data; source_address := src; source_port := sport |}.

End Scenario.

(** ** Vocabulary for the rest of the program *)

(** The targets of an agency that are not the source, in the order of
    [_forwardto]. *)
Definition sendable (self : MDNSAgency.t) : list Z :=
  filter (fun t => negb (same_host_network
                           (source_address (MDNSAgency._data self)) t))
         (MDNSAgency._forwardto self).

(** The calls an agency makes on its socket before its send loop, none of
    them raising (lines 71-75). *)
Definition agency_setup (self : MDNSAgency.t) : list event :=
  [(sock_socket, None);
   (sock_setsockopt_REUSEADDR, None);
   (sock_setsockopt_MULTICAST_TTL 1, None);
   (sock_bind (MDNSAgency._ip self) (MDNSAgency._port self), None);
   (sock_settimeout (MDNSAgency._timeout self), None)].

(** One membership request per interface (line 103). *)
Definition memberships (self : MDNSProxy.t) (ifs : list interface) : list event :=
  map (fun i => (sock_setsockopt_ADD_MEMBERSHIP (MDNSProxy._multicast self) (ip i),
                 @None exn)) ifs.

(** What [MDNSProxy.start] records before its loop when nothing raises
    (lines 99-104). *)
Definition startup_events (self : MDNSProxy.t) (ifs : list interface) : list event :=
  [(sock_socket, None);
   (sock_setsockopt_REUSEADDR, None);
   (sock_bind 0 (MDNSProxy._port self), None)]
  ++ memberships self ifs
  ++ [(sock_settimeout (MDNSProxy._timeout self), None)].

(** Sockets opened: the [socket()] calls that did not raise. *)
Definition opened (tr : list event) : nat :=
  length (filter (fun ev => match ev with
                            | (sock_socket, None) => true
                            | _ => false
                            end) tr).

(** Sockets closed. *)
Definition closed (tr : list event) : nat :=
  length (filter (fun ev => match fst ev with
                            | sock_close => true
                            | _ => false
                            end) tr).

(** A [sendto] or a [bind] that the configuration [ifs] allows for a packet
    from [src]: the port is the proxy's, and the address is a forward
    target, respectively the own address, of an interface that is eligible
    for the packet. *)
Definition configured (ifs : list interface) (src port : Z) (ev : event) : Prop :=
  match fst ev with
  | sock_sendto _ target p =>
      p = port /\
      exists i, In i ifs /\ eligible src i = true /\ In target (forwardto i)
  | sock_bind a p =>
      p = port /\ exists i, In i ifs /\ eligible src i = true /\ a = ip i
  | _ => True
  end.

(** The datagrams the log reports as sent: the [SEND] lines, as
    [(data, target, port)]. *)
Definition logged (tr : list event) : list (bytes * Z * Z) :=
  flat_map (fun ev =>
              match fst ev with
              | log_SEND _ target port data => [(data, target, port)]
              | _ => []
              end) tr.

(** What an agency's send loop over [targets] can record, with its result:
    the events of every target, or those of the targets before one whose
    [sendto] raised, and that call. *)
Definition send_loop_trace (self : MDNSAgency.t) (targets : list Z)
           (r : result unit) (sends : list event) : Prop :=
  (r = Ok tt /\ sends = flat_map (send_events self) targets) \/
  exists pre t post e,
    targets = pre ++ t :: post /\
    same_host_network (source_address (MDNSAgency._data self)) t = false /\
    r = Raise e /\
    sends = flat_map (send_events self) pre ++
            [(sock_sendto (payload (MDNSAgency._data self)) t
                          (MDNSAgency._port self), Some e)].

(** What an agency's [start] can record, with its result: the setup, the
    send loop and the close; or the setup up to a call that raised, and the
    close when the socket had been opened. *)
Definition start_trace (self : MDNSAgency.t) (r : result unit)
           (new : list event) : Prop :=
  (exists sends,
      send_loop_trace self (MDNSAgency._forwardto self) r sends /\
      new = agency_setup self ++ sends ++ [(sock_close, None)]) \/
  exists pre c post e,
    agency_setup self = pre ++ (c, None) :: post /\
    r = Raise e /\
    new = pre ++ (c, Some e) ::
              match pre with [] => [] | _ :: _ => [(sock_close, None)] end.

(** A world with one kind of fault. *)
Module Faults.

(** Joining the group on the interface address [a] raises [e]; no other call
    raises. *)
Definition join_fails (a : Z) (e : exn) (ifs : list interface) : world :=
  {| interfaces := ifs; trace := [];
     oracle := fun _ c =>
                 match c with
                 | sock_setsockopt_ADD_MEMBERSHIP _ x =>
                     if x =? a then Some e else None
                 | _ => None
                 end |}.

End Faults.

(** ** Facts about the classification loop *)

Section ClassificationFacts.

Import ipaddress.
Import MDNSProxy.

Variable self : MDNSProxy.t.
Variable recieve : packet.

Let src := source_address recieve.

Lemma host_mask_netmask : _make_netmask host_mask = Some (_ALL_ONES, 32).
Proof. reflexivity. Qed.

Lemma prefix32_netmask :
  _make_netmask (prefix_string _max_prefixlen) = Some (_ALL_ONES, 32).
Proof. reflexivity. Qed.

Lemma land_ALL_ONES (a : Z) : is_address a -> Z.land a _ALL_ONES = a.
Proof.
  intros Ha. unfold _ALL_ONES.
  change (2 ^ 32 - 1) with (Z.ones 32).
  rewrite Z.land_ones by lia.
  apply Z.mod_small. exact Ha.
Qed.

Lemma own_address_eqb (i : interface) :
  is_address (ip i) -> is_address src ->
  own_address src i = (ip i =? src).
Proof.
  intros Hi Hs. unfold own_address.
  rewrite (land_ALL_ONES _ Hi), (land_ALL_ONES _ Hs). reflexivity.
Qed.

(** One turn of the loop, with the networks computed. *)
Lemma for_interfaces_cons (i : interface) (rest : list interface) (l : locals) :
  for_interfaces self recieve (i :: rest) l =
  if own_address src i then
    Some {| local_network := local_network l;
            same_address := true;
            agencies := agencies l |}
  else
    match _make_netmask (mask i) with
    | None => None
    | Some _ =>
        for_interfaces self recieve rest
          {| local_network := subnet_match src i || local_network l;
             same_address := same_address l;
             agencies :=
               if eligible src i
               then agencies l ++ [new_agency self recieve i]
               else agencies l |}
    end.
Proof.
  cbn [for_interfaces]. unfold IPv4Network_of at 1 2.
  rewrite host_mask_netmask. cbn [network_address].
  unfold own_address, eligible, subnet_match. fold src.
  destruct (Z.land (ip i) _ALL_ONES =? Z.land src _ALL_ONES); [reflexivity|].
  unfold IPv4Network_of.
  destruct (_make_netmask (mask i)) as [[nm p]|]; [|reflexivity].
  cbn [network_address].
  destruct (Z.land (ip i) nm =? Z.land src nm), (reverse i); reflexivity.
Qed.

Lemma for_interfaces_total (ifs : list interface) :
  Forall valid_mask ifs ->
  forall l, exists l', for_interfaces self recieve ifs l = Some l'.
Proof.
  induction 1 as [|i rest Hi _ IH]; intros l.
  - exists l. reflexivity.
  - rewrite for_interfaces_cons.
    destruct (own_address src i); [eexists; reflexivity|].
    unfold valid_mask in Hi.
    destruct (_make_netmask (mask i)); [apply IH | contradiction].
Qed.

(** [same_address] ends up set exactly when it was set before or some
    interface has the source's address. *)
Lemma for_interfaces_same_address (ifs : list interface) :
  forall l l',
    for_interfaces self recieve ifs l = Some l' ->
    same_address l' = same_address l || existsb (own_address src) ifs.
Proof.
  induction ifs as [|i rest IH]; intros l l' H.
  - injection H as <-. cbn. now rewrite orb_false_r.
  - rewrite for_interfaces_cons in H. cbn [existsb].
    destruct (own_address src i).
    + injection H as <-. cbn. now rewrite orb_true_r.
    + destruct (_make_netmask (mask i)); [|discriminate].
      apply IH in H. cbn in H. exact H.
Qed.

(** Without a same-address hit the loop visits every interface. *)
Lemma for_interfaces_no_break (ifs : list interface) :
  Forall valid_mask ifs ->
  existsb (own_address src) ifs = false ->
  forall l,
    for_interfaces self recieve ifs l =
    Some {| local_network := existsb (subnet_match src) ifs || local_network l;
            same_address := same_address l;
            agencies :=
              agencies l ++
              map (new_agency self recieve) (filter (eligible src) ifs) |}.
Proof.
  induction 1 as [|i rest Hi _ IH]; intros Hex l.
  - cbn. rewrite app_nil_r. destruct l; reflexivity.
  - cbn [existsb] in Hex. apply orb_false_elim in Hex as [Hown Hrest].
    rewrite for_interfaces_cons, Hown.
    unfold valid_mask in Hi.
    destruct (_make_netmask (mask i)) eqn:Hm; [|contradiction].
    rewrite (IH Hrest). cbn [local_network same_address agencies existsb filter].
    f_equal. f_equal.
    + destruct (subnet_match src i), (existsb (subnet_match src) rest);
        reflexivity.
    + destruct (eligible src i); cbn [map].
      * rewrite <- app_assoc. reflexivity.
      * reflexivity.
Qed.

(** Every agency carries the received packet and the proxy's port. *)
Lemma for_interfaces_data (ifs : list interface) :
  forall l l',
    for_interfaces self recieve ifs l = Some l' ->
    Forall (fun a => MDNSAgency._data a = recieve) (agencies l) ->
    Forall (fun a => MDNSAgency._data a = recieve) (agencies l').
Proof.
  induction ifs as [|i rest IH]; intros l l' H Hl.
  - injection H as <-. exact Hl.
  - rewrite for_interfaces_cons in H.
    destruct (own_address src i).
    + injection H as <-. exact Hl.
    + destruct (_make_netmask (mask i)); [|discriminate].
      apply IH in H; [exact H|]. cbn.
      destruct (eligible src i); [|exact Hl].
      apply Forall_app. split; [exact Hl|].
      constructor; [reflexivity|constructor].
Qed.

Lemma existsb_own_address (ifs : list interface) :
  Forall (fun i => is_address (ip i)) ifs -> is_address src ->
  existsb (own_address src) ifs = existsb (fun i => ip i =? src) ifs.
Proof.
  intros Hifs Hs. induction Hifs as [|i rest Hi _ IH]; [reflexivity|].
  cbn. rewrite IH, (own_address_eqb _ Hi Hs). reflexivity.
Qed.

End ClassificationFacts.

(** ** Reasoning about computations in [M]

    Every computation leaves the interface list and the oracle alone and
    only appends to the trace.  [tri E m Q] says that from every world in
    [E], [m] ends with a result and new events satisfying [Q]; [det E m]
    says that the result and the new events are the same from every world
    in [E]. *)

Lemma extend_nil (w : world) : extend w [] = w.
Proof. destruct w. unfold extend. cbn. now rewrite app_nil_r. Qed.

Lemma extend_extend (w : world) (a b : list event) :
  extend (extend w a) b = extend w (a ++ b).
Proof. unfold extend. cbn. now rewrite app_assoc. Qed.

Lemma record_extend (e : event) (w : world) : record e w = extend w [e].
Proof. reflexivity. Qed.

Section Triples.

Variable E : world -> Prop.
Hypothesis E_extend : forall w new, E w -> E (extend w new).

Lemma tri_conseq {A} (m : M A) (Q Q' : result A -> list event -> Prop) :
  tri E m Q -> (forall r new, Q r new -> Q' r new) -> tri E m Q'.
Proof.
  intros H HQ w Hw. destruct (H w Hw) as (r & new & Hm & Hr).
  exists r, new. split; [exact Hm | apply HQ, Hr].
Qed.

Lemma tri_ret {A} (a : A) (Q : result A -> list event -> Prop) :
  Q (Ok a) [] -> tri E (ret a) Q.
Proof.
  intros H w _. exists (Ok a), []. rewrite extend_nil. split; [reflexivity | exact H].
Qed.

Lemma tri_raise {A} (e : exn) (Q : result A -> list event -> Prop) :
  Q (Raise e) [] -> tri E (raise e) Q.
Proof.
  intros H w _. exists (Raise e), []. rewrite extend_nil. split; [reflexivity | exact H].
Qed.

Lemma tri_lift {A} (o : option A) (Q : result A -> list event -> Prop) :
  match o with Some a => Q (Ok a) [] | None => Q (Raise NetmaskValueError) [] end ->
  tri E (lift o) Q.
Proof. destruct o; cbn; [apply tri_ret | apply tri_raise]. Qed.

Lemma tri_bind {A B} (m : M A) (k : A -> M B) (Q : result B -> list event -> Prop) :
  tri E m (fun r n1 =>
           match r with
           | Ok a => tri E (k a) (fun r2 n2 => Q r2 (n1 ++ n2))
           | Raise e => Q (Raise e) n1
           end) ->
  tri E (bind m k) Q.
Proof.
  intros H w Hw. destruct (H w Hw) as (r & n1 & Hm & Hr).
  unfold bind. rewrite Hm. destruct r as [a|e].
  - destruct (Hr (extend w n1) (E_extend _ _ Hw)) as (r2 & n2 & Hk & HQ).
    exists r2, (n1 ++ n2). rewrite Hk, extend_extend. split; [reflexivity | exact HQ].
  - exists (Raise e), n1. split; [reflexivity | exact Hr].
Qed.

Lemma tri_sys (c : call) (Q : result unit -> list event -> Prop) :
  (forall w, E w ->
             Q (outcome (oracle w (trace w) c)) [(c, oracle w (trace w) c)]) ->
  tri E (sys c) Q.
Proof.
  intros H w Hw. exists (outcome (oracle w (trace w) c)), [(c, oracle w (trace w) c)].
  split; [reflexivity | apply H, Hw].
Qed.

Lemma tri_emit (c : call) (Q : result unit -> list event -> Prop) :
  Q (Ok tt) [(c, None)] -> tri E (emit c) Q.
Proof. intros H w _. exists (Ok tt), [(c, None)]. split; [reflexivity | exact H]. Qed.

Lemma tri_get_interfaces (Q : result (list interface) -> list event -> Prop) :
  (forall w, E w -> Q (Ok (interfaces w)) []) -> tri E get_interfaces Q.
Proof.
  intros H w Hw. exists (Ok (interfaces w)), []. rewrite extend_nil.
  split; [reflexivity | apply H, Hw].
Qed.

Lemma tri_try_except {A} (m : M A) (h : exn -> M A)
      (Q : result A -> list event -> Prop) :
  tri E m (fun r n1 =>
           match r with
           | Ok a => Q (Ok a) n1
           | Raise e => tri E (h e) (fun r2 n2 => Q r2 (n1 ++ n2))
           end) ->
  tri E (try_except m h) Q.
Proof.
  intros H w Hw. destruct (H w Hw) as (r & n1 & Hm & Hr).
  unfold try_except. rewrite Hm. destruct r as [a|e].
  - exists (Ok a), n1. split; [reflexivity | exact Hr].
  - destruct (Hr (extend w n1) (E_extend _ _ Hw)) as (r2 & n2 & Hk & HQ).
    exists r2, (n1 ++ n2). rewrite Hk, extend_extend. split; [reflexivity | exact HQ].
Qed.

Lemma tri_with_socket {A} (body : M A) (Q : result A -> list event -> Prop) :
  (forall w, E w ->
     match oracle w (trace w) sock_socket with
     | Some e => Q (Raise e) [(sock_socket, Some e)]
     | None =>
         tri E body (fun r n =>
                     Q r ((sock_socket, None) :: n ++ [(sock_close, None)]))
     end) ->
  tri E (with_socket body) Q.
Proof.
  intros H w Hw. specialize (H w Hw).
  unfold with_socket, bind, sys, try_finally, emit.
  destruct (oracle w (trace w) sock_socket) as [e|].
  - exists (Raise e), [(sock_socket, Some e)]. split; [reflexivity | exact H].
  - destruct (H (record (sock_socket, None) w) (E_extend _ [_] Hw))
      as (r & n & Hb & HQ).
    rewrite Hb. rewrite !record_extend, !extend_extend.
    exists r, ((sock_socket, None) :: n ++ [(sock_close, None)]).
    split; [reflexivity | exact HQ].
Qed.

(** *** Determinism *)

Lemma det_ret {A} (a : A) : det E (ret a).
Proof. exists (Ok a), []. intros w _. now rewrite extend_nil. Qed.

Lemma det_raise {A} (e : exn) : det E (@raise A e).
Proof. exists (Raise e), []. intros w _. now rewrite extend_nil. Qed.

Lemma det_lift {A} (o : option A) : det E (lift o).
Proof. destruct o; [apply det_ret | apply det_raise]. Qed.

Lemma det_emit (c : call) : det E (emit c).
Proof. exists (Ok tt), [(c, None)]. reflexivity. Qed.

Lemma det_bind {A B} (m : M A) (k : A -> M B) :
  det E m -> (forall a, det E (k a)) -> det E (bind m k).
Proof.
  intros (r & n1 & Hm) Hk. destruct r as [a|e].
  - destruct (Hk a) as (r2 & n2 & Hk2). exists r2, (n1 ++ n2).
    intros w Hw. unfold bind. rewrite (Hm w Hw).
    rewrite (Hk2 _ (E_extend _ _ Hw)), extend_extend. reflexivity.
  - exists (Raise e), n1. intros w Hw. unfold bind. now rewrite (Hm w Hw).
Qed.

Lemma det_try_except {A} (m : M A) (h : exn -> M A) :
  det E m -> (forall e, det E (h e)) -> det E (try_except m h).
Proof.
  intros (r & n1 & Hm) Hh. destruct r as [a|e].
  - exists (Ok a), n1. intros w Hw. unfold try_except. now rewrite (Hm w Hw).
  - destruct (Hh e) as (r2 & n2 & Hh2). exists r2, (n1 ++ n2).
    intros w Hw. unfold try_except. rewrite (Hm w Hw).
    rewrite (Hh2 _ (E_extend _ _ Hw)), extend_extend. reflexivity.
Qed.

Lemma det_try_finally {A} (m : M A) (f : M unit) :
  det E m -> det E f -> det E (try_finally m f).
Proof.
  intros (r & n1 & Hm) (rf & n2 & Hf).
  exists (match rf with Ok _ => r | Raise e => Raise e end), (n1 ++ n2).
  intros w Hw. unfold try_finally. rewrite (Hm w Hw).
  rewrite (Hf _ (E_extend _ _ Hw)), extend_extend.
  destruct rf; reflexivity.
Qed.

Lemma det_sys (c : call) (o : option exn) :
  (forall w, E w -> oracle w (trace w) c = o) -> det E (sys c).
Proof.
  intros H. exists (outcome o), [(c, o)]. intros w Hw.
  unfold sys. rewrite (H w Hw). reflexivity.
Qed.

Lemma det_get_interfaces (ifs : list interface) :
  (forall w, E w -> interfaces w = ifs) -> det E get_interfaces.
Proof.
  intros H. exists (Ok ifs), []. intros w Hw.
  unfold get_interfaces. now rewrite (H w Hw), extend_nil.
Qed.

End Triples.

(** ** What a packet's handling may put on the trace *)

Lemma any_world_extend (w : world) (new : list event) :
  any_world w -> any_world (extend w new).
Proof. intros _. exact I. Qed.

Lemma closing_quiet (ev : event) : closing ev -> quiet ev.
Proof. intros ->. reflexivity. Qed.

(** A raising call in a trace whose other events are quiet is found at one
    place only. *)
Lemma raising_call_unique (pre0 post0 pre post : list event) (x y : event) :
  pre ++ x :: post = pre0 ++ y :: post0 ->
  ~ quiet x -> Forall quiet pre0 -> Forall quiet post0 ->
  pre = pre0 /\ x = y /\ post = post0.
Proof.
  revert pre. induction pre0 as [|a pre0 IH]; intros pre Heq Hx Hpre Hpost.
  - destruct pre as [|b pre]; cbn in Heq.
    + injection Heq as -> ->. auto.
    + injection Heq as -> <-. exfalso. apply Hx.
      rewrite Forall_forall in Hpost. apply Hpost.
      apply in_or_app. right. left. reflexivity.
  - destruct pre as [|b pre]; cbn in Heq.
    + injection Heq as -> _. exfalso. apply Hx.
      now inversion Hpre.
    + injection Heq as -> Heq. inversion Hpre; subst.
      destruct (IH pre Heq Hx) as (-> & -> & ->); auto.
Qed.

Section Invariant.

Variable recieve : packet.
Variable port : Z.

Lemma inv_nil {A} (a : A) : inv recieve port (Ok a) [].
Proof. split; constructor. Qed.

Lemma inv_raise_nil {A} (e : exn) : inv recieve port (@Raise A e) [].
Proof. split; [constructor | left; constructor]. Qed.

Lemma inv_app {A B} (a : A) (r : result B) (n1 n2 : list event) :
  inv recieve port (Ok a) n1 -> inv recieve port r n2 -> inv recieve port r (n1 ++ n2).
Proof.
  intros [H1 G1] [H2 G2]. split; [apply Forall_app; auto|].
  cbn in G1. destruct r as [b|e]; cbn in *.
  - apply Forall_app; auto.
  - destruct G2 as [G2 | (pre & c & post & -> & Hpre & Hpost)].
    + left. apply Forall_app; auto.
    + right. exists (n1 ++ pre), c, post. rewrite <- app_assoc.
      repeat split; [apply Forall_app; auto | exact Hpost].
Qed.

Lemma inv_cast {A B} (e : exn) (n : list event) :
  inv recieve port (@Raise A e) n -> inv recieve port (@Raise B e) n.
Proof. intros H. exact H. Qed.

Lemma inv_close {A} (r : result A) (n : list event) :
  inv recieve port r n -> inv recieve port r (n ++ [(sock_close, None)]).
Proof.
  intros [H G]. split.
  - apply Forall_app. split; [exact H | repeat constructor].
  - destruct r as [a|e]; cbn in *.
    + apply Forall_app. split; [exact G | repeat constructor].
    + destruct G as [G | (pre & c & post & -> & Hpre & Hpost)].
      * left. apply Forall_app. split; [exact G | repeat constructor].
      * right. exists pre, c, (post ++ [(sock_close, None)]).
        rewrite <- app_assoc. repeat split; [exact Hpre|].
        apply Forall_app. split; [exact Hpost | repeat constructor].
Qed.

Lemma inv_call (c : call) (o : option exn) :
  sendto_ok recieve port (c, o) -> inv recieve port (outcome o) [(c, o)].
Proof.
  intros Hc. split; [repeat constructor; exact Hc|].
  destruct o as [e|]; cbn.
  - right. exists [], c, []. repeat split; constructor.
  - repeat constructor.
Qed.

Notation "'{{' m '}}'" := (tri any_world m (inv recieve port)).

Lemma inv_ret {A} (a : A) : {{ ret a }}.
Proof. apply tri_ret, inv_nil. Qed.

Lemma inv_lift {A} (o : option A) : {{ lift o }}.
Proof. apply tri_lift. destruct o; [apply inv_nil | apply inv_raise_nil]. Qed.

Lemma inv_bind {A B} (m : M A) (k : A -> M B) :
  {{ m }} -> (forall a, {{ k a }}) -> {{ bind m k }}.
Proof.
  intros Hm Hk. apply (tri_bind _ any_world_extend).
  eapply tri_conseq; [exact Hm|]. intros [a|e] n1 H1.
  - eapply tri_conseq; [apply Hk|]. intros r2 n2 H2.
    eapply inv_app; eassumption.
  - exact H1.
Qed.

Lemma inv_sys (c : call) :
  (forall o, sendto_ok recieve port (c, o)) -> {{ sys c }}.
Proof. intros Hc. apply tri_sys. intros w _. apply inv_call, Hc. Qed.

Lemma inv_emit (c : call) : sendto_ok recieve port (c, None) -> {{ emit c }}.
Proof. intros Hc. apply tri_emit. apply (inv_call c None), Hc. Qed.

Lemma inv_get_interfaces : {{ get_interfaces }}.
Proof. apply tri_get_interfaces. intros w _. apply inv_nil. Qed.

Lemma inv_with_socket {A} (body : M A) : {{ body }} -> {{ with_socket body }}.
Proof.
  intros Hb. apply (tri_with_socket _ any_world_extend). intros w _.
  destruct (oracle w (trace w) sock_socket) as [e|].
  - apply (inv_call sock_socket (Some e)). exact I.
  - eapply tri_conseq; [exact Hb|]. intros r n H.
    change ((sock_socket, None) :: n ++ [(sock_close, None)])
      with ([(sock_socket, @None exn)] ++ (n ++ [(sock_close, None)])).
    eapply inv_app; [apply (inv_call sock_socket None); exact I|].
    apply inv_close, H.
Qed.

(** The send loop, the agency, the agencies of a packet, the packet. *)

Lemma inv_bind_lift {A B} (o : option A) (k : A -> M B) :
  (forall a, o = Some a -> {{ k a }}) -> {{ bind (lift o) k }}.
Proof.
  intros Hk. destruct o as [a|].
  - change (bind (lift (Some a)) k) with (fun w => k a w). apply Hk. reflexivity.
  - change (bind (lift None) k) with (@raise B NetmaskValueError).
    apply tri_raise, inv_raise_nil.
Qed.

(** The send loop, the agency, the agencies of a packet, the packet. *)

Lemma inv_for_forwardto (self : MDNSAgency.t) (targets : list Z) :
  MDNSAgency._data self = recieve -> MDNSAgency._port self = port ->
  forall net,
    ipaddress.IPv4Network_host (source_address recieve) = Some net ->
    {{ MDNSAgency.for_forwardto self net targets }}.
Proof.
  intros Hd Hp net Hnet. induction targets as [|t rest IH];
    cbn [MDNSAgency.for_forwardto].
  - apply inv_ret.
  - apply inv_bind_lift. intros tn Ht.
    apply inv_bind; [|intros _; exact IH].
    destruct (ipaddress.network_eqb net tn) eqn:Heq; cbn [negb]; [apply inv_ret|].
    apply inv_bind; [|intros _; apply inv_emit; exact I].
    apply inv_sys. intros o. unfold sendto_ok. cbn [fst].
    rewrite Hd, Hp. repeat split.
    unfold same_host_network. rewrite Hnet, Ht. exact Heq.
Qed.

Lemma inv_agency_start (self : MDNSAgency.t) :
  MDNSAgency._data self = recieve -> MDNSAgency._port self = port ->
  {{ MDNSAgency.start self }}.
Proof.
  intros Hd Hp. unfold MDNSAgency.start. apply inv_with_socket.
  repeat (apply inv_bind; [apply inv_sys; intros o; exact I | intros _]).
  rewrite Hd. apply inv_bind_lift. intros net Hnet.
  apply inv_for_forwardto; assumption.
Qed.

Lemma inv_for_agencies (ags : list MDNSAgency.t) :
  Forall (fun a => MDNSAgency._data a = recieve) ags ->
  Forall (fun a => MDNSAgency._port a = port) ags ->
  {{ MDNSProxy.for_agencies ags }}.
Proof.
  induction 1 as [|a rest Ha _ IH]; intros Hp; cbn [MDNSProxy.for_agencies].
  - apply inv_ret.
  - apply Forall_cons_iff in Hp as [Hpa Hprest].
    apply inv_bind; [apply inv_agency_start; assumption | intros _].
    apply IH, Hprest.
Qed.

End Invariant.

(** ** One packet, one iteration *)

Section Handling.

Import MDNSProxy.

Variable self : MDNSProxy.t.
Variable recieve : packet.

Lemma for_interfaces_port (ifs : list interface) :
  forall l l',
    for_interfaces self recieve ifs l = Some l' ->
    Forall (fun a => MDNSAgency._port a = _port self) (agencies l) ->
    Forall (fun a => MDNSAgency._port a = _port self) (agencies l').
Proof.
  induction ifs as [|i rest IH]; intros l l' H Hl.
  - injection H as <-. exact Hl.
  - rewrite for_interfaces_cons in H.
    destruct (own_address (source_address recieve) i).
    + injection H as <-. exact Hl.
    + destruct (ipaddress._make_netmask (mask i)); [|discriminate].
      apply IH in H; [exact H|]. cbn.
      destruct (eligible (source_address recieve) i); [|exact Hl].
      apply Forall_app. split; [exact Hl|].
      constructor; [reflexivity|constructor].
Qed.

(** [handle], with the classification done. *)
Lemma handle_eq (w : world) :
  handle self recieve w =
  match for_interfaces self recieve (interfaces w) locals_init with
  | None => (Raise NetmaskValueError, w)
  | Some l =>
      if accepted l then
        (emit (log_RECV (source_address recieve) (source_port recieve)
                        (payload recieve)) ;;
         for_agencies (agencies l)) w
      else (Ok tt, w)
  end.
Proof.
  unfold handle, get_interfaces, bind at 1 2.
  destruct (for_interfaces self recieve (interfaces w) locals_init) as [l|];
    cbn [lift]; [|reflexivity].
  unfold ret at 1, accepted. destruct (local_network l && negb (same_address l));
    reflexivity.
Qed.

(** An iteration that received a datagram: a [socket.timeout] from below
    is swallowed, everything else passes. *)
Lemma iteration_datagram (w : world) :
  iteration self (datagram recieve) w =
  match handle self recieve w with
  | (Raise socket_timeout, w') => (Ok tt, w')
  | other => other
  end.
Proof.
  unfold iteration, try_except, recvfrom, bind at 1, ret at 1.
  destruct (handle self recieve w) as [[[]|[]] w']; reflexivity.
Qed.

Lemma inv_handle :
  tri any_world (handle self recieve) (inv recieve (_port self)).
Proof.
  unfold handle. apply inv_bind; [apply inv_get_interfaces|]. intros ifs.
  apply inv_bind_lift. intros l Hl.
  destruct (local_network l && negb (same_address l)); [|apply inv_ret].
  apply inv_bind; [apply inv_emit; exact I | intros _].
  apply inv_for_agencies.
  - eapply for_interfaces_data; [exact Hl | constructor].
  - eapply for_interfaces_port; [exact Hl | constructor].
Qed.

End Handling.

(** ** When no call raises *)

Lemma no_faults_extend (w : world) (new : list event) :
  no_faults w -> no_faults (extend w new).
Proof. intros H. exact H. Qed.

Section Calm.

Variable self : MDNSAgency.t.

Let src := source_address (MDNSAgency._data self).
Let data := payload (MDNSAgency._data self).

Lemma IPv4Network_host_eq (a : Z) :
  ipaddress.IPv4Network_host a =
  Some {| ipaddress.network_address := Z.land a ipaddress._ALL_ONES;
          ipaddress.netmask := ipaddress._ALL_ONES;
          ipaddress._prefixlen := 32 |}.
Proof. reflexivity. Qed.

Lemma sys_calm (c : call) (w : world) :
  no_faults w -> sys c w = (Ok tt, extend w [(c, None)]).
Proof. intros H. unfold sys. rewrite (H (trace w) c). reflexivity. Qed.

Lemma for_forwardto_calm (targets : list Z) :
  forall net w,
    ipaddress.IPv4Network_host src = Some net ->
    no_faults w ->
    MDNSAgency.for_forwardto self net targets w =
    (Ok tt, extend w (flat_map (send_events self) targets)).
Proof.
  unfold src. induction targets as [|t rest IH]; intros net w Hnet Hw.
  - cbn. now rewrite extend_nil.
  - cbn [MDNSAgency.for_forwardto flat_map].
    unfold send_events at 1, same_host_network. rewrite Hnet.
    destruct (ipaddress.IPv4Network_host t) as [tn|] eqn:Ht;
      [|rewrite IPv4Network_host_eq in Ht; discriminate].
    unfold bind at 1. cbn [lift ret].
    destruct (ipaddress.network_eqb net tn); cbn [negb].
    + unfold bind, ret. rewrite (IH net w Hnet Hw). reflexivity.
    + unfold bind at 1 2. rewrite (sys_calm _ w Hw). unfold emit.
      rewrite record_extend, extend_extend.
      rewrite (IH net _ Hnet (no_faults_extend _ _ Hw)), extend_extend.
      reflexivity.
Qed.

Lemma start_calm (w : world) :
  no_faults w -> MDNSAgency.start self w = (Ok tt, extend w (start_events self)).
Proof.
  intros Hw. unfold MDNSAgency.start, with_socket, try_finally.
  unfold bind at 1. rewrite (sys_calm _ w Hw).
  pose proof (no_faults_extend w) as Hext.
  unfold bind at 1. rewrite (sys_calm _ _ (Hext _ Hw)), extend_extend.
  unfold bind at 1. rewrite (sys_calm _ _ (Hext _ Hw)), extend_extend.
  unfold bind at 1. rewrite (sys_calm _ _ (Hext _ Hw)), extend_extend.
  unfold bind at 1. rewrite (sys_calm _ _ (Hext _ Hw)), extend_extend.
  unfold bind at 1. rewrite IPv4Network_host_eq. cbn [lift ret].
  rewrite (for_forwardto_calm _ _ _ (IPv4Network_host_eq _) (Hext _ Hw)).
  unfold emit. rewrite record_extend, !extend_extend.
  unfold start_events. rewrite <- !app_assoc. reflexivity.
Qed.

Lemma datagrams_app (a b : list event) :
  datagrams (a ++ b) = datagrams a ++ datagrams b.
Proof. apply flat_map_app. Qed.

Lemma attempts_app (a b : list event) :
  attempts (a ++ b) = attempts a ++ attempts b.
Proof. apply flat_map_app. Qed.

Lemma datagrams_send_events (targets : list Z) :
  datagrams (flat_map (send_events self) targets) =
  map (fun t => (data, t, MDNSAgency._port self))
      (filter (fun t => negb (same_host_network src t)) targets).
Proof.
  induction targets as [|t rest IH]; [reflexivity|].
  cbn [flat_map filter]. rewrite datagrams_app, IH. unfold send_events.
  fold src. destruct (same_host_network src t); reflexivity.
Qed.

Lemma attempts_send_events (targets : list Z) :
  attempts (flat_map (send_events self) targets) =
  filter (fun t => negb (same_host_network src t)) targets.
Proof.
  induction targets as [|t rest IH]; [reflexivity|].
  cbn [flat_map filter]. rewrite attempts_app, IH. unfold send_events.
  fold src. destruct (same_host_network src t); reflexivity.
Qed.

Lemma datagrams_start_events :
  datagrams (start_events self) =
  map (fun t => (data, t, MDNSAgency._port self))
      (filter (fun t => negb (same_host_network src t))
              (MDNSAgency._forwardto self)).
Proof.
  unfold start_events. rewrite !datagrams_app, datagrams_send_events.
  cbn. now rewrite app_nil_r.
Qed.

Lemma attempts_start_events :
  attempts (start_events self) =
  filter (fun t => negb (same_host_network src t)) (MDNSAgency._forwardto self).
Proof.
  unfold start_events. rewrite !attempts_app, attempts_send_events.
  cbn. now rewrite app_nil_r.
Qed.

End Calm.

Lemma for_agencies_calm (ags : list MDNSAgency.t) (w : world) :
  no_faults w ->
  MDNSProxy.for_agencies ags w = (Ok tt, extend w (flat_map start_events ags)).
Proof.
  revert w. induction ags as [|a rest IH]; intros w Hw.
  - cbn. now rewrite extend_nil.
  - cbn [MDNSProxy.for_agencies flat_map]. unfold bind.
    rewrite (start_calm a w Hw).
    rewrite (IH _ (no_faults_extend _ _ Hw)), extend_extend. reflexivity.
Qed.

Lemma same_host_network_refl (a : Z) : same_host_network a a = true.
Proof.
  unfold same_host_network. rewrite IPv4Network_host_eq.
  unfold ipaddress.network_eqb. cbn. now rewrite !Z.eqb_refl.
Qed.

Lemma same_host_network_spec (src target : Z) :
  same_host_network src target = true <->
  ipaddress.IPv4Network_host target = ipaddress.IPv4Network_host src.
Proof.
  unfold same_host_network. rewrite !IPv4Network_host_eq.
  unfold ipaddress.network_eqb. cbn. rewrite andb_true_r. split.
  - intros H. apply Z.eqb_eq in H. now rewrite H.
  - intros H. injection H as H. rewrite H. apply Z.eqb_refl.
Qed.

(** ** The claims *)

Import ipaddress.
Import MDNSProxy.

(** C1.  For a packet whose source is no configured interface's own
    address, [same_address] stays false, [local_network] says whether some
    interface's subnet holds the source, and the agencies are those of the
    interfaces, in order, that are eligible: (a) the source cut by the
    interface's netmask differs from the interface's network address, or
    (b) they are equal and [reverse] is true.  In the scenario with A and B
    and a packet from 192.168.1.50, [local_network] is true, only A gets an
    agency, and the one datagram goes to 10.0.0.1. *)
Theorem forward_set_rule :
  (forall (self : MDNSProxy.t) (recieve : packet) (ifs : list interface),
      let src := source_address recieve in
      Forall valid_mask ifs ->
      Forall (fun i => is_address (ip i)) ifs ->
      is_address src ->
      (forall i, In i ifs -> ip i <> src) ->
      for_interfaces self recieve ifs locals_init =
        Some {| local_network := existsb (subnet_match src) ifs;
                same_address := false;
                agencies := map (new_agency self recieve)
                                (filter (eligible src) ifs) |}
      /\ forall i nm p,
          _make_netmask (mask i) = Some (nm, p) ->
          (eligible src i = true <->
           Z.land src nm <> Z.land (ip i) nm \/
           (Z.land src nm = Z.land (ip i) nm /\ reverse i = true)))
  /\ (forall (data : bytes) (sport : Z),
         let recieve := Scenario.from (quad 192 168 1 50) data sport in
         let w := Scenario.calm [Scenario.A; Scenario.B] in
         for_interfaces default recieve [Scenario.A; Scenario.B] locals_init =
           Some {| local_network := true;
                   same_address := false;
                   agencies := [new_agency default recieve Scenario.A] |}
         /\ eligible (quad 192 168 1 50) Scenario.B = false
         /\ eligible (quad 192 168 1 50) Scenario.A = true
         /\ attempts (trace (snd (iteration default (datagram recieve) w)))
            = [quad 10 0 0 1]
         /\ datagrams (trace (snd (iteration default (datagram recieve) w)))
            = [(data, quad 10 0 0 1, 5353)]).
Proof.
  split.
  - intros self recieve ifs src Hmask Hip Hsrc Hne. split.
    + assert (Hown : existsb (own_address src) ifs = false).
      { unfold src. rewrite (existsb_own_address recieve ifs Hip Hsrc).
        apply not_true_is_false. intros Hex.
        apply existsb_exists in Hex as (i & Hi & Heq).
        apply Z.eqb_eq in Heq. exact (Hne i Hi Heq). }
      rewrite (for_interfaces_no_break self recieve ifs Hmask Hown).
      cbn. now rewrite orb_false_r.
    + intros i nm p Hm. unfold eligible, subnet_match. rewrite Hm.
      destruct (Z.eqb_spec (Z.land (ip i) nm) (Z.land src nm)) as [Heq|Hneq];
        cbn.
      * split.
        -- intros Hr. right. split; [symmetry; exact Heq | exact Hr].
        -- intros [Hd | [_ Hr]]; [|exact Hr]. exfalso. apply Hd. now symmetry.
      * split; [|reflexivity]. intros _. left. intros H. apply Hneq. now symmetry.
  - intros data sport recieve w. repeat split.
Qed.

Lemma forward_set_rule_witness :
  let recieve := Scenario.from (quad 192 168 1 50) [] 5353 in
  for_interfaces default recieve [Scenario.A; Scenario.B] locals_init =
    Some {| local_network :=
              existsb (subnet_match (quad 192 168 1 50)) [Scenario.A; Scenario.B];
            same_address := false;
            agencies :=
              map (new_agency default recieve)
                  (filter (eligible (quad 192 168 1 50))
                          [Scenario.A; Scenario.B]) |}.
Proof.
  apply (proj1 forward_set_rule default
               (Scenario.from (quad 192 168 1 50) [] 5353)
               [Scenario.A; Scenario.B]).
  - repeat constructor; discriminate.
  - repeat constructor; cbn; lia.
  - split; cbn; lia.
  - intros i [<- | [<- | []]]; discriminate.
Defined.

(** C2.  When some configured interface has the packet's source as its own
    address, the iteration leaves the world as it was: nothing is logged,
    no socket is opened, no datagram is sent, wherever the interface stands
    in the list and whatever the subnets are.  The classification, when it
    completes, has [same_address] set and starts no agency; with valid
    masks it completes and the iteration ends normally. *)
Theorem self_echo_dropped :
  forall (self : MDNSProxy.t) (recieve : packet) (w : world) (i : interface),
    In i (interfaces w) ->
    ip i = source_address recieve ->
    (exists r, iteration self (datagram recieve) w = (r, w)) /\
    (forall l,
        for_interfaces self recieve (interfaces w) locals_init = Some l ->
        same_address l = true /\ executed l = []) /\
    (Forall valid_mask (interfaces w) ->
     iteration self (datagram recieve) w = (Ok tt, w)).
Proof.
  intros self recieve w i Hin Hip.
  assert (Hown : existsb (own_address (source_address recieve)) (interfaces w) = true).
  { apply existsb_exists. exists i. split; [exact Hin|].
    unfold own_address. rewrite Hip. apply Z.eqb_refl. }
  assert (Hsame : forall l,
             for_interfaces self recieve (interfaces w) locals_init = Some l ->
             same_address l = true).
  { intros l Hl. apply for_interfaces_same_address in Hl.
    rewrite Hl, Hown. reflexivity. }
  assert (Hdrop : forall l,
             for_interfaces self recieve (interfaces w) locals_init = Some l ->
             accepted l = false).
  { intros l Hl. unfold accepted. rewrite (Hsame l Hl). apply andb_false_r. }
  split; [|split].
  - rewrite iteration_datagram, handle_eq.
    destruct (for_interfaces self recieve (interfaces w) locals_init) as [l|] eqn:Hl.
    + rewrite (Hdrop l eq_refl). eexists; reflexivity.
    + eexists; reflexivity.
  - intros l Hl. split; [apply Hsame, Hl|].
    unfold executed. now rewrite (Hdrop l Hl).
  - intros Hmask. rewrite iteration_datagram, handle_eq.
    destruct (for_interfaces_total self recieve _ Hmask locals_init) as (l & Hl).
    rewrite Hl, (Hdrop l Hl). reflexivity.
Qed.

Lemma self_echo_dropped_witness :
  let recieve := Scenario.from (quad 10 0 0 5) [x01] 5353 in
  let w := Scenario.calm [Scenario.B; Scenario.A] in
  iteration default (datagram recieve) w = (Ok tt, w).
Proof.
  apply (self_echo_dropped default (Scenario.from (quad 10 0 0 5) [x01] 5353)
           (Scenario.calm [Scenario.B; Scenario.A]) Scenario.A).
  - right. left. reflexivity.
  - reflexivity.
  - repeat constructor; discriminate.
Defined.



(** An iteration only appends to the trace. *)
Lemma iteration_frame
      (self : MDNSProxy.t) (r : recvfrom_result) (w : world) :
  exists res new, iteration self r w = (res, extend w new).
Proof.
  destruct r as [recieve|e].
  - rewrite iteration_datagram.
    destruct (inv_handle self recieve w I) as (res & new & Hh & _).
    rewrite Hh.
    exists (match res with Raise socket_timeout => Ok tt | _ => res end), new.
    destruct res as [[]|[]]; reflexivity.
  - exists (match e with socket_timeout => Ok tt | _ => Raise e end), [].
    rewrite extend_nil. destruct e; reflexivity.
Qed.

(** C8.  Whatever an iteration receives, every [sendto] it makes carries
    the payload of the datagram just received, unchanged, and the
    interface list is the same afterwards; the same holds for the interface
    list over any run of the loop. *)
Theorem payload_and_interfaces_untouched :
  forall (self : MDNSProxy.t) (r : recvfrom_result) (w : world),
    (exists res new,
        iteration self r w = (res, extend w new) /\
        forall data target port o,
          In (sock_sendto data target port, o) new ->
          exists recieve, r = datagram recieve /\ data = payload recieve) /\
    interfaces (snd (iteration self r w)) = interfaces w /\
    forall rs, interfaces (snd (while_True self rs w)) = interfaces w.
Proof.
  assert (Hit : forall self r w, exists res new,
               iteration self r w = (res, extend w new) /\
               forall data target port o,
                 In (sock_sendto data target port, o) new ->
                 exists recieve, r = datagram recieve /\ data = payload recieve).
  { intros self [recieve|e] w.
    - rewrite iteration_datagram.
      destruct (inv_handle self recieve w I) as (res & new & Hh & Hsend & _).
      rewrite Hh.
      exists (match res with Raise socket_timeout => Ok tt | _ => res end), new.
      split; [destruct res as [[]|[]]; reflexivity|].
      intros data target port o Hin. exists recieve. split; [reflexivity|].
      rewrite Forall_forall in Hsend. apply Hsend in Hin. apply Hin.
    - exists (match e with socket_timeout => Ok tt | _ => Raise e end), [].
      rewrite extend_nil. split; [destruct e; reflexivity|]. intros ? ? ? ? []. }
  intros self r w. split; [apply Hit|]. split.
  - destruct (Hit self r w) as (res & new & -> & _). reflexivity.
  - intros rs. revert w. induction rs as [|r' rs IH]; intros w; [reflexivity|].
    cbn [while_True]. unfold bind.
    destruct (Hit self r' w) as (res & new & -> & _).
    destruct res; [rewrite IH|]; reflexivity.
Qed.

(** C9.  When [recvfrom] raises [socket.timeout], the iteration does
    nothing and ends normally, and the loop goes on with the next
    [recvfrom] from the same world, however many waits expire in a row. *)
Theorem timeout_is_a_poll :
  forall (self : MDNSProxy.t) (w : world) (rs : list recvfrom_result),
    iteration self (raises socket_timeout) w = (Ok tt, w) /\
    while_True self (raises socket_timeout :: rs) w = while_True self rs w /\
    forall n,
      while_True self (repeat (raises socket_timeout) n ++ rs) w =
      while_True self rs w.
Proof.
  intros self w rs. split; [reflexivity|]. split; [reflexivity|].
  induction n as [|n IH]; [reflexivity|]. exact IH.
Qed.

(** C4.  Whatever the environment does, an agency's [sendto] calls carry
    the received payload to the agency's port and never go to a target
    whose /32 network is the source's, so never to the source address
    itself.  When no call raises, [start] ends normally and the datagrams
    sent are, in order, one per entry of [_forwardto] whose /32 network
    differs from the source's, each [(payload, target, port)]. *)
Theorem forwarder_skips_source :
  forall (self : MDNSAgency.t) (w : world),
    let src := source_address (MDNSAgency._data self) in
    let data := payload (MDNSAgency._data self) in
    (exists r new,
        MDNSAgency.start self w = (r, extend w new) /\
        forall d t p o,
          In (sock_sendto d t p, o) new ->
          same_host_network src t = false /\ t <> src /\
          d = data /\ p = MDNSAgency._port self) /\
    (forall t,
        same_host_network src t = true <->
        IPv4Network_host t = IPv4Network_host src) /\
    (no_faults w ->
     exists new,
       MDNSAgency.start self w = (Ok tt, extend w new) /\
       datagrams new =
       map (fun t => (data, t, MDNSAgency._port self))
           (filter (fun t => negb (same_host_network src t))
                   (MDNSAgency._forwardto self))).
Proof.
  intros self w src data. split; [|split].
  - destruct (inv_agency_start (MDNSAgency._data self) (MDNSAgency._port self)
                               self eq_refl eq_refl w I)
      as (r & new & Hs & Hall & _).
    exists r, new. split; [exact Hs|]. intros d t p o Hin.
    rewrite Forall_forall in Hall. apply Hall in Hin.
    destruct Hin as (Hd & Hp & Hn). repeat split; auto.
    intros ->. fold src in Hn. rewrite same_host_network_refl in Hn. discriminate.
  - intros t. apply same_host_network_spec.
  - intros Hw. exists (start_events self). split.
    + apply start_calm, Hw.
    + apply datagrams_start_events.
Qed.

Lemma forwarder_skips_source_witness :
  let self :=
    {| MDNSAgency._ip := quad 172 16 0 5;
       MDNSAgency._forwardto := [quad 172 16 0 50; quad 172 16 0 9];
       MDNSAgency._data := Scenario.from (quad 172 16 0 50) [x01; x02] 5353;
       MDNSAgency._port := 5353;
       MDNSAgency._timeout := 5;
       MDNSAgency._buffer_size := 4096 |} in
  exists new,
    MDNSAgency.start self (Scenario.calm []) = (Ok tt, extend (Scenario.calm []) new) /\
    datagrams new = [([x01; x02], quad 172 16 0 9, 5353)].
Proof.
  apply (forwarder_skips_source
           {| MDNSAgency._ip := quad 172 16 0 5;
              MDNSAgency._forwardto := [quad 172 16 0 50; quad 172 16 0 9];
              MDNSAgency._data := Scenario.from (quad 172 16 0 50) [x01; x02] 5353;
              MDNSAgency._port := 5353;
              MDNSAgency._timeout := 5;
              MDNSAgency._buffer_size := 4096 |}
           (Scenario.calm [])).
  intros h c. reflexivity.
Defined.

(** C5, as stated, fails.  Interfaces A2 (targets 10.0.0.1 and 10.0.0.2), C
    and B; a packet from 192.168.1.50 is accepted and both A2 and C get an
    agency.  When the send to 10.0.0.1 raises [OSError], 10.0.0.2 is never
    tried, C's agency is never started, and the exception leaves the loop:
    the next datagram is not handled. *)
Lemma send_failure_not_isolated :
  let recieve := Scenario.from (quad 192 168 1 50) [x01] 5353 in
  let w := Scenario.failing (quad 10 0 0 1) OSError
                            [Scenario.A2; Scenario.C; Scenario.B] in
  let run := while_True default [datagram recieve; datagram recieve] w in
  (exists l,
      for_interfaces default recieve (interfaces w) locals_init = Some l /\
      executed l = [new_agency default recieve Scenario.A2;
                    new_agency default recieve Scenario.C]) /\
  fst run = Raise OSError /\
  attempts (trace (snd run)) = [quad 10 0 0 1] /\
  datagrams (trace (snd run)) = [] /\
  trace (snd run) =
    [(log_RECV (quad 192 168 1 50) 5353 [x01], None);
     (sock_socket, None);
     (sock_setsockopt_REUSEADDR, None);
     (sock_setsockopt_MULTICAST_TTL 1, None);
     (sock_bind (quad 10 0 0 5) 5353, None);
     (sock_settimeout 5, None);
     (sock_sendto [x01] (quad 10 0 0 1) 5353, Some OSError);
     (sock_close, None)].
Proof.
  cbv zeta. split; [eexists; split; reflexivity|]. repeat split.
Qed.

(** C5, amended.  When a [sendto] made while handling a packet raises [e],
    [e] comes out of the handling and nothing follows the call on the trace
    but closing the socket: no further target is tried and no further
    agency is started.  The loop swallows [e] and goes on with the next
    [recvfrom] when [e] is [socket.timeout]; any other [e] leaves the
    loop. *)
Theorem send_failure_propagates :
  forall (self : MDNSProxy.t) (recieve : packet) (w w' : world)
         (r : result unit) (pre post : list event)
         (data : bytes) (target port : Z) (e : exn),
    handle self recieve w = (r, w') ->
    trace w' = trace w ++ pre ++ (sock_sendto data target port, Some e) :: post ->
    r = Raise e /\
    Forall closing post /\
    attempts post = [] /\
    iteration self (datagram recieve) w =
      (match e with socket_timeout => Ok tt | _ => Raise e end, w') /\
    forall rs,
      while_True self (datagram recieve :: rs) w =
      match e with
      | socket_timeout => while_True self rs w'
      | _ => (Raise e, w')
      end.
Proof.
  intros self recieve w w' r pre post data target port e Hh Htr.
  destruct (inv_handle self recieve w I) as (r0 & new & Hh0 & _ & Hgood).
  rewrite Hh in Hh0. injection Hh0 as <- Hw'.
  rewrite Hw' in Htr. cbn [extend trace] in Htr.
  apply app_inv_head in Htr. subst new. clear Hw'.
  assert (Hloud : ~ quiet (sock_sendto data target port, Some e))
    by (unfold quiet; cbn; discriminate).
  assert (Hr : r = Raise e /\ Forall closing post).
  { destruct r as [[]|e0]; cbn in Hgood.
    - exfalso. apply Hloud. rewrite Forall_forall in Hgood. apply Hgood.
      apply in_or_app. right. left. reflexivity.
    - destruct Hgood as [Hq | (pre0 & c & post0 & Heq & Hpre & Hpost)].
      + exfalso. apply Hloud. rewrite Forall_forall in Hq. apply Hq.
        apply in_or_app. right. left. reflexivity.
      + apply raising_call_unique in Heq as (_ & Hev & ->);
          [| exact Hloud | exact Hpre
           | eapply Forall_impl; [apply closing_quiet | exact Hpost]].
        injection Hev as _ ->. auto. }
  destruct Hr as [-> Hpost].
  assert (Hit : iteration self (datagram recieve) w =
                (match e with socket_timeout => Ok tt | _ => Raise e end, w')).
  { rewrite iteration_datagram, Hh. destruct e; reflexivity. }
  repeat split.
  - exact Hpost.
  - clear - Hpost. induction Hpost as [|ev post Hev _ IH]; [reflexivity|].
    rewrite Hev. exact IH.
  - exact Hit.
  - intros rs. cbn [while_True]. unfold bind. rewrite Hit.
    destruct e; reflexivity.
Qed.

Lemma send_failure_propagates_witness :
  let recieve := Scenario.from (quad 192 168 1 50) [x01] 5353 in
  let w := Scenario.failing (quad 10 0 0 1) socket_timeout
                            [Scenario.A2; Scenario.C; Scenario.B] in
  iteration default (datagram recieve) w =
    (Ok tt, snd (handle default recieve w)).
Proof.
  cbv zeta.
  refine (proj1 (proj2 (proj2 (proj2
    (send_failure_propagates default
       (Scenario.from (quad 192 168 1 50) [x01] 5353)
       (Scenario.failing (quad 10 0 0 1) socket_timeout
                         [Scenario.A2; Scenario.C; Scenario.B])
       _ (Raise socket_timeout)
       [(log_RECV (quad 192 168 1 50) 5353 [x01], None);
        (sock_socket, None);
        (sock_setsockopt_REUSEADDR, None);
        (sock_setsockopt_MULTICAST_TTL 1, None);
        (sock_bind (quad 10 0 0 5) 5353, None);
        (sock_settimeout 5, None)]
       [(sock_close, None)]
       [x01] (quad 10 0 0 1) 5353 socket_timeout _ _))))).
  - reflexivity.
  - reflexivity.
Defined.

Lemma existsb_pointwise {A} (f g : A -> bool) (l : list A) :
  (forall a, f a = g a) -> existsb f l = existsb g l.
Proof.
  intros H. induction l as [|a l IH]; [reflexivity|].
  cbn. now rewrite H, IH.
Qed.

(** C6.  With a well-formed configuration, the loop as written (one pass,
    leaving at the first same-address hit) and the two-phase classification
    of the specification agree on [same_address], on whether the packet is
    accepted, and on the agencies that are started. *)
Theorem single_pass_refines_two_phase :
  forall (self : MDNSProxy.t) (recieve : packet) (ifs : list interface),
    let src := source_address recieve in
    let c := TwoPhase.classify src ifs in
    Forall valid_mask ifs ->
    Forall (fun i => is_address (ip i)) ifs ->
    is_address src ->
    exists l,
      for_interfaces self recieve ifs locals_init = Some l /\
      same_address l = TwoPhase.same_address c /\
      accepted l = TwoPhase.accepted c /\
      executed l = map (new_agency self recieve) (TwoPhase.executed c).
Proof.
  intros self recieve ifs src c Hmask Hip Hsrc.
  assert (Hown : existsb (own_address src) ifs = TwoPhase.phase1 src ifs).
  { apply existsb_own_address; assumption. }
  assert (Hsub : forall i, subnet_match src i = TwoPhase.in_subnet src i).
  { intros i. unfold subnet_match, TwoPhase.in_subnet.
    destruct (_make_netmask (mask i)) as [[nm p]|]; [apply Z.eqb_sym | reflexivity]. }
  assert (Hel : forall i, eligible src i = TwoPhase.forward_eligible src i).
  { intros i. unfold eligible, TwoPhase.forward_eligible. now rewrite Hsub. }
  unfold c, TwoPhase.classify.
  destruct (TwoPhase.phase1 src ifs) eqn:Hp1.
  - destruct (for_interfaces_total self recieve ifs Hmask locals_init) as (l & Hl).
    exists l. split; [exact Hl|].
    pose proof (for_interfaces_same_address self recieve ifs _ _ Hl) as Hs.
    fold src in Hs. rewrite Hown in Hs. cbn in Hs.
    unfold executed, accepted, TwoPhase.executed, TwoPhase.accepted. cbn.
    rewrite Hs, andb_false_r. auto.
  - rewrite (for_interfaces_no_break self recieve ifs Hmask Hown).
    eexists. split; [reflexivity|].
    unfold executed, accepted, TwoPhase.executed, TwoPhase.accepted. cbn.
    rewrite !orb_false_r, !andb_true_r. fold src.
    rewrite (existsb_pointwise _ _ ifs Hsub), (filter_ext _ _ Hel).
    split; [reflexivity|]. split; [reflexivity|].
    destruct (existsb (TwoPhase.in_subnet src) ifs); reflexivity.
Qed.

Lemma single_pass_refines_two_phase_witness :
  let recieve := Scenario.from (quad 10 0 0 5) [x01] 5353 in
  let ifs := [Scenario.B; Scenario.C; Scenario.A] in
  exists l,
    for_interfaces default recieve ifs locals_init = Some l /\
    same_address l = true /\
    accepted l = false /\
    executed l = [].
Proof.
  apply (single_pass_refines_two_phase default
           (Scenario.from (quad 10 0 0 5) [x01] 5353)
           [Scenario.B; Scenario.C; Scenario.A]).
  - repeat constructor; discriminate.
  - repeat constructor; cbn; lia.
  - split; cbn; lia.
Defined.

(** The two disagree on [local_network] when a subnet matches before the
    same-address hit: the loop has already set the flag, the two-phase
    classification never looks at subnets.  The packet is dropped either
    way. *)
Example local_network_differs_when_dropped :
  let B' := {| ip := quad 192 168 1 50; mask := ip_string (quad 255 255 255 0);
               forwardto := []; reverse := false |} in
  let recieve := Scenario.from (quad 192 168 1 50) [x01] 5353 in
  option_map local_network
             (for_interfaces default recieve [Scenario.B; B'] locals_init)
    = Some true /\
  TwoPhase.local_network (TwoPhase.classify (quad 192 168 1 50) [Scenario.B; B'])
    = false.
Proof. split; reflexivity. Qed.

(** ** Replaying a packet *)

Section Replay.

Variable o : list event -> call -> option exn.
Variable ifs : list interface.
Hypothesis o_stable : forall h1 h2 c, o h1 c = o h2 c.

Lemma same_env_extend (w : world) (new : list event) :
  (same_env o ifs) w -> (same_env o ifs) (extend w new).
Proof. intros H. exact H. Qed.

Notation "'<<' m '>>'" := (det (same_env o ifs) m).

Lemma replay_sys (c : call) : << sys c >>.
Proof.
  apply (det_sys (same_env o ifs) c (o [] c)). intros w [-> _]. apply o_stable.
Qed.

Lemma replay_bind {A B} (m : M A) (k : A -> M B) :
  << m >> -> (forall a, << k a >>) -> << bind m k >>.
Proof. apply det_bind, same_env_extend. Qed.

Lemma replay_for_forwardto (self : MDNSAgency.t) (net : IPv4Network)
      (targets : list Z) :
  << MDNSAgency.for_forwardto self net targets >>.
Proof.
  induction targets as [|t rest IH]; cbn [MDNSAgency.for_forwardto].
  - apply det_ret.
  - apply replay_bind; [apply det_lift | intros tn].
    apply replay_bind; [|intros _; exact IH].
    destruct (negb (network_eqb net tn)); [|apply det_ret].
    apply replay_bind; [apply replay_sys | intros _; apply det_emit].
Qed.

Lemma replay_agency_start (self : MDNSAgency.t) : << MDNSAgency.start self >>.
Proof.
  unfold MDNSAgency.start, with_socket.
  apply replay_bind; [apply replay_sys | intros _].
  apply (det_try_finally _ same_env_extend); [|apply det_emit].
  repeat (apply replay_bind; [apply replay_sys | intros _]).
  apply replay_bind; [apply det_lift | intros net].
  apply replay_for_forwardto.
Qed.

Lemma replay_for_agencies (ags : list MDNSAgency.t) : << for_agencies ags >>.
Proof.
  induction ags as [|a rest IH]; cbn [for_agencies].
  - apply det_ret.
  - apply replay_bind; [apply replay_agency_start | intros _; exact IH].
Qed.

Lemma replay_handle (self : MDNSProxy.t) (recieve : packet) :
  << handle self recieve >>.
Proof.
  unfold handle.
  apply replay_bind; [apply (det_get_interfaces (same_env o ifs) ifs); intros w H; apply H|].
  intros ifs'. apply replay_bind; [apply det_lift | intros l].
  destruct (local_network l && negb (same_address l)); [|apply det_ret].
  apply replay_bind; [apply det_emit | intros _; apply replay_for_agencies].
Qed.

Lemma replay_iteration (self : MDNSProxy.t) (r : recvfrom_result) :
  << iteration self r >>.
Proof.
  unfold iteration. apply (det_try_except _ same_env_extend).
  - apply replay_bind; [|intros recieve; apply replay_handle].
    destruct r; [apply det_ret | apply det_raise].
  - intros []; (apply det_ret || apply det_raise).
Qed.

End Replay.

(** C7.  Handling the same datagram a second time, right after the first,
    finds the interface list as it was and so classifies it the same way:
    same flags, same agencies in the same order.  In an environment that
    answers a call the same way each time, the second handling ends as the
    first and puts the same events on the trace, so the same datagrams go
    to the same targets. *)
Theorem replay_identical :
  forall (self : MDNSProxy.t) (recieve : packet) (w : world),
    let first := iteration self (datagram recieve) w in
    let second := iteration self (datagram recieve) (snd first) in
    for_interfaces self recieve (interfaces (snd first)) locals_init =
    for_interfaces self recieve (interfaces w) locals_init /\
    (stable w ->
     fst second = fst first /\
     exists acts,
       trace (snd first) = trace w ++ acts /\
       trace (snd second) = trace (snd first) ++ acts /\
       datagrams (trace (snd second)) =
       datagrams (trace w) ++ datagrams acts ++ datagrams acts).
Proof.
  intros self recieve w first second. split.
  - unfold first.
    destruct (iteration_frame self (datagram recieve) w)
      as (res & new & ->). reflexivity.
  - intros Hst.
    destruct (replay_iteration (oracle w) (interfaces w) Hst self (datagram recieve))
      as (res & acts & Hrun).
    assert (H1 : first = (res, extend w acts)) by (apply Hrun; split; reflexivity).
    assert (H2 : second = (res, extend (extend w acts) acts)).
    { unfold second. rewrite H1. apply Hrun. split; reflexivity. }
    rewrite H1, H2. split; [reflexivity|]. exists acts. cbn.
    repeat split. now rewrite !datagrams_app, <- app_assoc.
Qed.

Lemma replay_identical_witness :
  let recieve := Scenario.from (quad 192 168 1 50) [x01] 5353 in
  let w := Scenario.calm [Scenario.A2; Scenario.C; Scenario.B] in
  let first := iteration default (datagram recieve) w in
  let second := iteration default (datagram recieve) (snd first) in
  fst second = fst first /\
  exists acts,
    trace (snd first) = trace w ++ acts /\
    trace (snd second) = trace (snd first) ++ acts /\
    datagrams (trace (snd second)) =
    datagrams (trace w) ++ datagrams acts ++ datagrams acts.
Proof.
  apply (replay_identical default
           (Scenario.from (quad 192 168 1 50) [x01] 5353)
           (Scenario.calm [Scenario.A2; Scenario.C; Scenario.B])).
  intros h1 h2 c. reflexivity.
Defined.

(** ** What the decision depends on *)

Lemma for_interfaces_decision (self : MDNSProxy.t) (r1 r2 : packet)
      (ifs : list interface) :
  source_address r1 = source_address r2 ->
  forall l1 l2,
    decision l1 = decision l2 ->
    option_map decision (for_interfaces self r1 ifs l1) =
    option_map decision (for_interfaces self r2 ifs l2).
Proof.
  intros Hsrc. induction ifs as [|i rest IH]; intros l1 l2 Hd.
  - cbn. now rewrite Hd.
  - rewrite !for_interfaces_cons. rewrite <- Hsrc.
    unfold decision in Hd. injection Hd as Hs Hl Ha.
    destruct (own_address (source_address r1) i).
    + cbn. unfold decision. cbn. now rewrite Hl, Ha.
    + destruct (_make_netmask (mask i)); [|reflexivity].
      apply IH. unfold decision. cbn. rewrite Hs, Hl. f_equal.
      destruct (eligible (source_address r1) i); [|exact Ha].
      rewrite !map_app, Ha. reflexivity.
Qed.

Lemma attempts_agencies (recieve : packet) (ags : list MDNSAgency.t) :
  Forall (fun a => MDNSAgency._data a = recieve) ags ->
  attempts (flat_map start_events ags) =
  destinations (source_address recieve)
               (map (fun a => (MDNSAgency._ip a, MDNSAgency._forwardto a)) ags).
Proof.
  induction 1 as [|a rest Ha _ IH]; [reflexivity|].
  cbn [flat_map map]. rewrite attempts_app, attempts_start_events, IH, Ha.
  reflexivity.
Qed.

(** What handling a packet does when no call raises. *)
Lemma handle_calm (self : MDNSProxy.t) (recieve : packet) (w : world) :
  no_faults w ->
  exists r new,
    handle self recieve w = (r, extend w new) /\
    r = match for_interfaces self recieve (interfaces w) locals_init with
        | Some _ => Ok tt
        | None => Raise NetmaskValueError
        end /\
    attempts new =
    match option_map decision
                     (for_interfaces self recieve (interfaces w) locals_init) with
    | Some (same, local, fwd) =>
        if local && negb same
        then destinations (source_address recieve) fwd
        else []
    | None => []
    end.
Proof.
  intros Hw. rewrite handle_eq.
  destruct (for_interfaces self recieve (interfaces w) locals_init) as [l|] eqn:Hl.
  - cbn [option_map decision]. unfold accepted.
    destruct (local_network l && negb (same_address l)).
    + unfold bind, emit. rewrite record_extend.
      rewrite (for_agencies_calm _ _ (no_faults_extend _ _ Hw)), extend_extend.
      eexists _, _. split; [reflexivity|]. split; [reflexivity|].
      cbn [app]. change (attempts (?x :: ?l)) with (attempts [x] ++ attempts l).
      cbn [attempts flat_map fst app].
      apply attempts_agencies.
      eapply for_interfaces_data; [exact Hl | constructor].
    + exists (Ok tt), []. rewrite extend_nil. auto.
  - exists (Raise NetmaskValueError), []. rewrite extend_nil. auto.
Qed.

(** C10.  Two packets from the same source, whatever their payloads and
    source ports, are classified alike against an interface list: same
    [same_address], same [local_network], same forward set as pairs of
    interface address and targets.  When no call raises, handling either
    packet ends the same way and makes its [sendto] calls to the same
    targets in the same order. *)
Theorem decision_depends_on_source_only :
  forall (self : MDNSProxy.t) (ifs : list interface) (src : Z)
         (data1 data2 : bytes) (sport1 sport2 : Z),
    let r1 := {| payload := data1; source_address := src; source_port := sport1 |} in
    let r2 := {| payload := data2; source_address := src; source_port := sport2 |} in
    option_map decision (for_interfaces self r1 ifs locals_init) =
    option_map decision (for_interfaces self r2 ifs locals_init) /\
    forall w,
      interfaces w = ifs ->
      no_faults w ->
      fst (handle self r1 w) = fst (handle self r2 w) /\
      exists new1 new2,
        snd (handle self r1 w) = extend w new1 /\
        snd (handle self r2 w) = extend w new2 /\
        attempts new1 = attempts new2.
Proof.
  intros self ifs src data1 data2 sport1 sport2 r1 r2.
  assert (Hd : forall l,
             option_map decision (for_interfaces self r1 l locals_init) =
             option_map decision (for_interfaces self r2 l locals_init)).
  { intros l. apply for_interfaces_decision; reflexivity. }
  split; [apply Hd|]. intros w Hifs Hw.
  destruct (handle_calm self r1 w Hw) as (res1 & new1 & H1 & Hr1 & Ha1).
  destruct (handle_calm self r2 w Hw) as (res2 & new2 & H2 & Hr2 & Ha2).
  rewrite H1, H2. cbn [fst snd]. split.
  - rewrite Hr1, Hr2. specialize (Hd (interfaces w)).
    destruct (for_interfaces self r1 (interfaces w) locals_init),
             (for_interfaces self r2 (interfaces w) locals_init);
      cbn in Hd; congruence.
  - exists new1, new2. repeat split.
    rewrite Ha1, Ha2, (Hd (interfaces w)). reflexivity.
Qed.

Lemma decision_depends_on_source_only_witness :
  let r1 := Scenario.from (quad 192 168 1 50) [x01] 5353 in
  let r2 := Scenario.from (quad 192 168 1 50) [x02; x03] 40000 in
  let w := Scenario.calm [Scenario.A2; Scenario.C; Scenario.B] in
  fst (handle default r1 w) = fst (handle default r2 w) /\
  exists new1 new2,
    snd (handle default r1 w) = extend w new1 /\
    snd (handle default r2 w) = extend w new2 /\
    attempts new1 = attempts new2.
Proof.
  apply (proj2 (decision_depends_on_source_only default
                  [Scenario.A2; Scenario.C; Scenario.B] (quad 192 168 1 50)
                  [x01] [x02; x03] 5353 40000)
               (Scenario.calm [Scenario.A2; Scenario.C; Scenario.B])).
  - reflexivity.
  - intros h c. reflexivity.
Defined.

(** ** The subnet test, bit by bit *)

Lemma netmask_bits (p n : Z) :
  0 <= p <= 32 -> 0 <= n ->
  Z.testbit (_ip_int_from_prefix p) n = (32 - p <=? n) && (n <? 32).
Proof.
  intros Hp Hn. unfold _ip_int_from_prefix, _ALL_ONES.
  change (2 ^ 32 - 1) with (Z.ones 32).
  rewrite Z.lxor_spec, Z.shiftr_spec by lia.
  rewrite !Z.testbit_ones_nonneg by lia.
  destruct (Z.ltb_spec n 32), (Z.ltb_spec (n + p) 32), (Z.leb_spec (32 - p) n);
    cbn; try reflexivity; lia.
Qed.

Lemma address_high_bits (a n : Z) :
  is_address a -> 32 <= n -> Z.testbit a n = false.
Proof.
  intros Ha Hn. rewrite <- (Z.mod_small a (2 ^ 32)) by exact Ha.
  apply Z.mod_pow2_bits_high. lia.
Qed.

(** Cutting an address by the netmask of prefix [p] clears its low
    [32 - p] bits. *)
Lemma land_netmask (a p : Z) :
  is_address a -> 0 <= p <= 32 ->
  Z.land a (_ip_int_from_prefix p) = Z.shiftl (Z.shiftr a (32 - p)) (32 - p).
Proof.
  intros Ha Hp. apply Z.bits_inj'. intros n Hn.
  rewrite Z.land_spec, netmask_bits by lia.
  destruct (Z.leb_spec (32 - p) n) as [Hge|Hlt]; cbn [andb].
  - rewrite Z.shiftl_spec, Z.shiftr_spec by lia.
    replace (n - (32 - p) + (32 - p)) with n by lia.
    destruct (Z.ltb_spec n 32); [apply andb_true_r|].
    rewrite andb_false_r. symmetry. apply address_high_bits; [exact Ha | lia].
  - rewrite andb_false_r. symmetry. apply Z.shiftl_spec_low. lia.
Qed.

Lemma count_righthand_zero_bits_range (x : Z) :
  0 <= _count_righthand_zero_bits x 32 <= 32.
Proof.
  unfold _count_righthand_zero_bits, bit_length.
  destruct (x =? 0); [lia|].
  set (y := Z.land (Z.lnot x) (x - 1)).
  destruct (y =? 0); [lia|].
  pose proof (Z.log2_nonneg (Z.abs y)). lia.
Qed.

Lemma prefix_from_ip_int_range (x p : Z) :
  _prefix_from_ip_int x = Some p -> 0 <= p <= 32.
Proof.
  unfold _prefix_from_ip_int.
  pose proof (count_righthand_zero_bits_range x) as Hc.
  change _max_prefixlen with 32.
  set (c := _count_righthand_zero_bits x 32) in *.
  destruct (Z.shiftr x c =? Z.shiftl 1 (32 - c) - 1); [|discriminate].
  intros H. assert (Hp : 32 - c = p) by congruence. lia.
Qed.

(** Whatever the spelling of a valid mask, the netmask is that of a prefix
    length between 0 and 32. *)
Lemma make_netmask_range (m : mask_arg) (nm p : Z) :
  _make_netmask m = Some (nm, p) ->
  0 <= p <= 32 /\ nm = _ip_int_from_prefix p.
Proof.
  unfold _make_netmask. destruct m as [n|x].
  - unfold _prefix_from_prefix_string, _max_prefixlen.
    destruct (Z.leb_spec 0 n), (Z.leb_spec n 32); cbn [andb]; try discriminate.
    intros Hm. assert (Hn : n = p) by congruence. subst p.
    split; [lia | congruence].
  - unfold _prefix_from_ip_string.
    destruct (_prefix_from_ip_int x) as [q|] eqn:H1.
    + intros H. assert (Hq : q = p) by congruence. subst q.
      split; [eapply prefix_from_ip_int_range; eassumption | congruence].
    + destruct (_prefix_from_ip_int (Z.lxor x _ALL_ONES)) as [q|] eqn:H2;
        [|discriminate].
      intros H. assert (Hq : q = p) by congruence. subst q.
      split; [eapply prefix_from_ip_int_range; eassumption | congruence].
Qed.

(** X1.  For an interface with a valid mask, the mask stands for a prefix
    length [p] between 0 and 32, and the subnet test of lines 120-124 holds
    exactly when the interface's address and the source agree on their top
    [p] bits. *)
Theorem subnet_match_top_bits :
  forall (i : interface) (src : Z),
    valid_mask i -> is_address (ip i) -> is_address src ->
    exists p,
      0 <= p <= 32 /\
      _make_netmask (mask i) = Some (_ip_int_from_prefix p, p) /\
      subnet_match src i = (Z.shiftr (ip i) (32 - p) =? Z.shiftr src (32 - p)).
Proof.
  intros i src Hv Hi Hs. unfold valid_mask in Hv.
  destruct (_make_netmask (mask i)) as [[nm p]|] eqn:Hm; [|contradiction].
  destruct (make_netmask_range _ _ _ Hm) as [Hp ->].
  exists p. split; [exact Hp|]. split; [reflexivity|].
  unfold subnet_match. rewrite Hm, !land_netmask by assumption.
  rewrite !Z.shiftl_mul_pow2 by lia.
  assert (H2 : 2 ^ (32 - p) <> 0) by (apply Z.pow_nonzero; lia).
  destruct (Z.eqb_spec (Z.shiftr (ip i) (32 - p)) (Z.shiftr src (32 - p)))
    as [Heq|Hne].
  - rewrite Heq. apply Z.eqb_refl.
  - apply Z.eqb_neq. intros H. apply Hne. eapply Z.mul_reg_r; eassumption.
Qed.

Lemma subnet_match_top_bits_witness :
  exists p,
    0 <= p <= 32 /\
    _make_netmask (mask Scenario.B) = Some (_ip_int_from_prefix p, p) /\
    subnet_match (quad 192 168 1 50) Scenario.B =
    (Z.shiftr (ip Scenario.B) (32 - p) =? Z.shiftr (quad 192 168 1 50) (32 - p)).
Proof.
  apply (subnet_match_top_bits Scenario.B (quad 192 168 1 50)).
  - discriminate.
  - split; cbn; lia.
  - split; cbn; lia.
Defined.

Lemma prefix_in_range (p : Z) :
  0 <= p <= 32 -> In p (map Z.of_nat (seq 0 33)).
Proof.
  intros Hp. rewrite <- (Z2Nat.id p) by lia.
  apply in_map, in_seq. lia.
Qed.

(** A mask may be spelt as a prefix length, as a dotted-quad netmask or, for
    the lengths 1 to 31, as a dotted-quad hostmask: all three give the same
    netmask and prefix length. *)
Lemma mask_spellings_agree :
  forall p,
    0 <= p <= 32 ->
    let nm := _ip_int_from_prefix p in
    _make_netmask (prefix_string p) = Some (nm, p) /\
    _make_netmask (ip_string nm) = Some (nm, p) /\
    (1 <= p <= 31 ->
     _make_netmask (ip_string (Z.lxor nm _ALL_ONES)) = Some (nm, p)).
Proof.
  intros p Hp. apply prefix_in_range in Hp. revert p Hp.
  apply Forall_forall.
  assert (Hedge : forall q, (q = 0 \/ q = 32) -> ~ 1 <= q <= 31) by lia.
  cbv [seq map Z.of_nat Pos.of_succ_nat Pos.succ].
  repeat (apply Forall_cons;
          [split; [reflexivity|];
           split; [reflexivity|];
           first [intros _; reflexivity | intros H; exfalso; lia]|]).
  apply Forall_nil.
Qed.

Lemma for_interfaces_same_netmask (self : MDNSProxy.t) (recieve : packet)
      (pre : list interface) (i i' : interface) (post : list interface) :
  ip i' = ip i -> forwardto i' = forwardto i -> reverse i' = reverse i ->
  _make_netmask (mask i') = _make_netmask (mask i) ->
  forall l,
    for_interfaces self recieve (pre ++ i' :: post) l =
    for_interfaces self recieve (pre ++ i :: post) l.
Proof.
  intros Hip Hfw Hrev Hm. induction pre as [|j pre IH]; intros l; cbn [app].
  - rewrite !for_interfaces_cons.
    unfold own_address, eligible, subnet_match, new_agency.
    now rewrite Hip, Hfw, Hrev, Hm.
  - rewrite !for_interfaces_cons.
    destruct (own_address (source_address recieve) j); [reflexivity|].
    destruct (_make_netmask (mask j)); [apply IH | reflexivity].
Qed.

(** X2.  The classification does not depend on how an interface's mask is
    spelt.  Writing the prefix length [p] as the dotted-quad netmask or, for
    [p] from 1 to 31, as the dotted-quad hostmask, in place of the decimal
    string, leaves the loop's result the same for every packet: the same
    flags and the same agencies. *)
Theorem classification_ignores_mask_spelling :
  forall (self : MDNSProxy.t) (recieve : packet)
         (pre : list interface) (i i' : interface) (post : list interface)
         (p : Z) (l : locals),
    0 <= p <= 32 ->
    mask i = prefix_string p ->
    ip i' = ip i -> forwardto i' = forwardto i -> reverse i' = reverse i ->
    mask i' = ip_string (_ip_int_from_prefix p) \/
    (1 <= p <= 31 /\
     mask i' = ip_string (Z.lxor (_ip_int_from_prefix p) _ALL_ONES)) ->
    for_interfaces self recieve (pre ++ i' :: post) l =
    for_interfaces self recieve (pre ++ i :: post) l.
Proof.
  intros self recieve pre i i' post p l Hp Hmi Hip Hfw Hrev Hspell.
  apply for_interfaces_same_netmask; try assumption.
  destruct (mask_spellings_agree p Hp) as (H1 & H2 & H3).
  rewrite Hmi, H1.
  destruct Hspell as [-> | [Hp' ->]]; [exact H2 | exact (H3 Hp')].
Qed.

Lemma classification_ignores_mask_spelling_witness :
  let recieve := Scenario.from (quad 192 168 1 50) [x01] 5353 in
  let B24 := {| ip := quad 192 168 1 5; mask := prefix_string 24;
                forwardto := [quad 224 0 0 251]; reverse := false |} in
  let Bhost := {| ip := quad 192 168 1 5; mask := ip_string (quad 0 0 0 255);
                  forwardto := [quad 224 0 0 251]; reverse := false |} in
  for_interfaces default recieve ([Scenario.A] ++ Bhost :: []) locals_init =
  for_interfaces default recieve ([Scenario.A] ++ B24 :: []) locals_init.
Proof.
  apply (classification_ignores_mask_spelling default
           (Scenario.from (quad 192 168 1 50) [x01] 5353)
           [Scenario.A]
           {| ip := quad 192 168 1 5; mask := prefix_string 24;
              forwardto := [quad 224 0 0 251]; reverse := false |}
           {| ip := quad 192 168 1 5; mask := ip_string (quad 0 0 0 255);
              forwardto := [quad 224 0 0 251]; reverse := false |}
           [] 24 locals_init).
  - lia.
  - reflexivity.
  - reflexivity.
  - reflexivity.
  - reflexivity.
  - right. split; [lia | reflexivity].
Defined.

(** ** The loop and its exits *)

Lemma for_interfaces_invalid_mask (self : MDNSProxy.t) (recieve : packet)
      (pre : list interface) (i : interface) (post : list interface) :
  existsb (own_address (source_address recieve)) (pre ++ [i]) = false ->
  Forall valid_mask pre ->
  _make_netmask (mask i) = None ->
  forall l, for_interfaces self recieve (pre ++ i :: post) l = None.
Proof.
  intros Hown Hpre Hi. induction Hpre as [|j pre Hj _ IH]; intros l.
  - cbn [app] in *. rewrite for_interfaces_cons.
    cbn [existsb] in Hown. apply orb_false_elim in Hown as [-> _].
    now rewrite Hi.
  - cbn [app] in *. rewrite for_interfaces_cons.
    cbn [existsb] in Hown. apply orb_false_elim in Hown as [-> Hrest].
    unfold valid_mask in Hj.
    destruct (_make_netmask (mask j)); [apply IH, Hrest | contradiction].
Qed.

(** X3.  A mask that [ipaddress] rejects is not noticed at startup.  The
    first datagram whose classification reaches that interface (no
    same-address hit before or at it, valid masks before it) raises
    [NetmaskValueError]: nothing is logged or sent, and the exception
    leaves the loop, so no later datagram is handled. *)
Theorem invalid_mask_stops_the_loop :
  forall (self : MDNSProxy.t) (recieve : packet) (w : world)
         (pre : list interface) (i : interface) (post : list interface)
         (rs : list recvfrom_result),
    interfaces w = pre ++ i :: post ->
    Forall valid_mask pre ->
    existsb (own_address (source_address recieve)) (pre ++ [i]) = false ->
    ~ valid_mask i ->
    iteration self (datagram recieve) w = (Raise NetmaskValueError, w) /\
    while_True self (datagram recieve :: rs) w = (Raise NetmaskValueError, w).
Proof.
  intros self recieve w pre i post rs Hifs Hpre Hown Hi.
  assert (Hm : _make_netmask (mask i) = None).
  { unfold valid_mask in Hi. destruct (_make_netmask (mask i)); [|reflexivity].
    exfalso. apply Hi. discriminate. }
  assert (Hit : iteration self (datagram recieve) w = (Raise NetmaskValueError, w)).
  { rewrite iteration_datagram, handle_eq, Hifs.
    now rewrite (for_interfaces_invalid_mask self recieve pre i post Hown Hpre Hm). }
  split; [exact Hit|]. cbn [while_True]. unfold bind. now rewrite Hit.
Qed.

Lemma invalid_mask_stops_the_loop_witness :
  let bad := {| ip := quad 172 16 0 5; mask := ip_string (quad 255 0 255 0);
                forwardto := [quad 172 16 0 1]; reverse := false |} in
  let recieve := Scenario.from (quad 192 168 1 50) [x01] 5353 in
  let w := Scenario.calm [Scenario.A; bad; Scenario.B] in
  while_True default [datagram recieve; datagram recieve] w =
  (Raise NetmaskValueError, w).
Proof.
  apply (invalid_mask_stops_the_loop default
           (Scenario.from (quad 192 168 1 50) [x01] 5353)
           (Scenario.calm [Scenario.A;
                           {| ip := quad 172 16 0 5;
                              mask := ip_string (quad 255 0 255 0);
                              forwardto := [quad 172 16 0 1];
                              reverse := false |};
                           Scenario.B])
           [Scenario.A]
           {| ip := quad 172 16 0 5; mask := ip_string (quad 255 0 255 0);
              forwardto := [quad 172 16 0 1]; reverse := false |}
           [Scenario.B]).
  - reflexivity.
  - repeat constructor; discriminate.
  - reflexivity.
  - intros H. apply H. reflexivity.
Defined.

(** X4.  The loop over the results of successive [recvfrom] calls runs them
    in order and stops for good at the first iteration that raises: what
    comes after has no effect.  A [recvfrom] that raises anything but
    [socket.timeout] is such an iteration, and it does nothing else. *)
Theorem loop_stops_at_first_exception :
  forall (self : MDNSProxy.t) (rs1 rs2 : list recvfrom_result) (w : world),
    while_True self (rs1 ++ rs2) w =
      match while_True self rs1 w with
      | (Ok _, w') => while_True self rs2 w'
      | (Raise e, w') => (Raise e, w')
      end /\
    forall e,
      e <> socket_timeout ->
      while_True self (raises e :: rs2) w = (Raise e, w).
Proof.
  intros self rs1 rs2 w. split.
  - revert w. induction rs1 as [|r rs1 IH]; intros w; [reflexivity|].
    cbn [app while_True]. unfold bind.
    destruct (iteration self r w) as [[[]|e] w']; [apply IH | reflexivity].
  - intros e He. destruct e; [contradiction | reflexivity | reflexivity].
Qed.

Lemma loop_stops_at_first_exception_witness :
  let recieve := Scenario.from (quad 192 168 1 50) [x01] 5353 in
  let w := Scenario.calm [Scenario.A; Scenario.B] in
  while_True default (raises OSError :: [datagram recieve]) w = (Raise OSError, w).
Proof.
  apply (loop_stops_at_first_exception default []
           [datagram (Scenario.from (quad 192 168 1 50) [x01] 5353)]
           (Scenario.calm [Scenario.A; Scenario.B])).
  discriminate.
Defined.

(** ** Startup *)

Lemma join_groups_calm (self : MDNSProxy.t) (ifs : list interface) (w : world) :
  no_faults w ->
  join_groups self ifs w = (Ok tt, extend w (memberships self ifs)).
Proof.
  revert w. induction ifs as [|i rest IH]; intros w Hw.
  - cbn. now rewrite extend_nil.
  - cbn [join_groups memberships map]. unfold bind.
    rewrite (sys_calm _ w Hw).
    rewrite (IH _ (no_faults_extend _ _ Hw)), extend_extend. reflexivity.
Qed.

(** X5.  When no startup call raises, [start] opens the socket, sets
    [SO_REUSEADDR], binds to the wildcard address on the proxy's port, asks
    for one group membership per interface, in list order, each for the
    proxy's group on that interface's address, sets the timeout, and only
    then enters the loop.  When an exception leaves the loop the socket is
    closed. *)
Theorem startup_joins_every_interface :
  forall (self : MDNSProxy.t) (rs : list recvfrom_result) (w : world),
    no_faults w ->
    start self rs w =
    match while_True self rs (extend w (startup_events self (interfaces w))) with
    | (Ok u, w') => (Ok u, w')
    | (Raise e, w') => (Raise e, extend w' [(sock_close, None)])
    end.
Proof.
  intros self rs w Hw. pose proof (no_faults_extend w) as Hext.
  unfold start, try_except.
  unfold bind at 1. rewrite (sys_calm _ w Hw).
  unfold bind at 1. rewrite (sys_calm _ _ (Hext _ Hw)), extend_extend.
  unfold bind at 1. rewrite (sys_calm _ _ (Hext _ Hw)), extend_extend.
  unfold bind at 1, get_interfaces at 1. cbn [interfaces extend].
  unfold bind at 1. rewrite (join_groups_calm _ _ _ (Hext _ Hw)), extend_extend.
  unfold bind at 1. rewrite (sys_calm _ _ (Hext _ Hw)), extend_extend.
  unfold startup_events. rewrite <- !app_assoc. cbn [app].
  destruct (while_True self rs _) as [[u|e] w']; reflexivity.
Qed.

Lemma startup_joins_every_interface_witness :
  let w := Scenario.calm [Scenario.A; Scenario.B] in
  start default [] w =
  (Ok tt, extend w [(sock_socket, None);
                    (sock_setsockopt_REUSEADDR, None);
                    (sock_bind 0 5353, None);
                    (sock_setsockopt_ADD_MEMBERSHIP (quad 224 0 0 251) (quad 10 0 0 5), None);
                    (sock_setsockopt_ADD_MEMBERSHIP (quad 224 0 0 251) (quad 192 168 1 5), None);
                    (sock_settimeout 5, None)]).
Proof.
  apply (startup_joins_every_interface default []
           (Scenario.calm [Scenario.A; Scenario.B])).
  intros h c. reflexivity.
Defined.

Section FailedJoin.

Variable a : Z.
Variable e : exn.

(** Joining on the address [a] raises [e]; nothing else raises. *)
Let only_join_fails (w : world) : Prop :=
  (forall h c, (forall g, c <> sock_setsockopt_ADD_MEMBERSHIP g a) ->
               oracle w h c = None) /\
  (forall h g, oracle w h (sock_setsockopt_ADD_MEMBERSHIP g a) = Some e).

Lemma sys_other (c : call) (w : world) :
  only_join_fails w ->
  (forall g, c <> sock_setsockopt_ADD_MEMBERSHIP g a) ->
  sys c w = (Ok tt, extend w [(c, None)]).
Proof. intros [H _] Hc. unfold sys. now rewrite (H (trace w) c Hc). Qed.

Lemma join_groups_fails (self : MDNSProxy.t) (pre : list interface)
      (i : interface) (post : list interface) (w : world) :
  only_join_fails w ->
  Forall (fun j => ip j <> a) pre ->
  ip i = a ->
  join_groups self (pre ++ i :: post) w =
  (Raise e,
   extend w (memberships self pre ++
             [(sock_setsockopt_ADD_MEMBERSHIP (_multicast self) a, Some e)])).
Proof.
  intros Hw Hpre Hi. revert w Hw.
  induction Hpre as [|j pre Hj _ IH]; intros w Hw.
  - cbn [app join_groups memberships map]. unfold bind, sys.
    rewrite Hi, (proj2 Hw). reflexivity.
  - cbn [app join_groups memberships map]. unfold bind.
    rewrite (sys_other _ w Hw) by (intros g Hc; injection Hc as _ Hc; auto).
    rewrite (IH (extend w _) Hw), extend_extend. reflexivity.
Qed.

Lemma start_join_fails (self : MDNSProxy.t) (rs : list recvfrom_result)
      (pre : list interface) (i : interface) (post : list interface) (w : world) :
  only_join_fails w ->
  interfaces w = pre ++ i :: post ->
  Forall (fun j => ip j <> a) pre ->
  ip i = a ->
  start self rs w =
  (Raise e,
   extend w ([(sock_socket, None);
              (sock_setsockopt_REUSEADDR, None);
              (sock_bind 0 (_port self), None)]
             ++ memberships self pre
             ++ [(sock_setsockopt_ADD_MEMBERSHIP (_multicast self) a, Some e);
                 (sock_close, None)])).
Proof.
  intros Hw Hifs Hpre Hi.
  assert (Hext : forall new, only_join_fails (extend w new)) by (intros new; exact Hw).
  unfold start, try_except.
  unfold bind at 1. rewrite (sys_other _ w Hw) by discriminate.
  unfold bind at 1. rewrite (sys_other _ _ (Hext _)), extend_extend by discriminate.
  unfold bind at 1. rewrite (sys_other _ _ (Hext _)), extend_extend by discriminate.
  unfold bind at 1, get_interfaces at 1. cbn [interfaces extend]. rewrite Hifs.
  unfold bind at 1.
  rewrite (join_groups_fails self pre i post _ (Hext _) Hpre Hi), extend_extend.
  unfold bind, emit, raise. rewrite record_extend, extend_extend.
  rewrite <- !app_assoc. reflexivity.
Qed.

End FailedJoin.

(** X6.  A failed group membership is fatal.  When joining on one
    interface's address raises [e] and no other call does, [start] has
    joined on the interfaces before it, joins on none after it, closes the
    socket and ends with [e]: no [recvfrom] result is ever handled, whatever
    would have been received. *)
Theorem failed_join_is_fatal :
  forall (self : MDNSProxy.t) (rs : list recvfrom_result) (w : world)
         (pre : list interface) (i : interface) (post : list interface)
         (e : exn),
    interfaces w = pre ++ i :: post ->
    Forall (fun j => ip j <> ip i) pre ->
    (forall h c, (forall g, c <> sock_setsockopt_ADD_MEMBERSHIP g (ip i)) ->
                 oracle w h c = None) ->
    (forall h g, oracle w h (sock_setsockopt_ADD_MEMBERSHIP g (ip i)) = Some e) ->
    start self rs w =
    (Raise e,
     extend w ([(sock_socket, None);
                (sock_setsockopt_REUSEADDR, None);
                (sock_bind 0 (_port self), None)]
               ++ memberships self pre
               ++ [(sock_setsockopt_ADD_MEMBERSHIP (_multicast self) (ip i), Some e);
                   (sock_close, None)])).
Proof.
  intros self rs w pre i post e Hifs Hpre H1 H2.
  apply (start_join_fails (ip i) e self rs pre i post w);
    [split; assumption | assumption | assumption | reflexivity].
Qed.

Lemma failed_join_is_fatal_witness :
  let recieve := Scenario.from (quad 192 168 1 50) [x01] 5353 in
  let w := Faults.join_fails (quad 172 16 0 5) OSError
                             [Scenario.A; Scenario.C; Scenario.B] in
  start default [datagram recieve] w =
  (Raise OSError,
   extend w [(sock_socket, None);
             (sock_setsockopt_REUSEADDR, None);
             (sock_bind 0 5353, None);
             (sock_setsockopt_ADD_MEMBERSHIP (quad 224 0 0 251) (quad 10 0 0 5), None);
             (sock_setsockopt_ADD_MEMBERSHIP (quad 224 0 0 251) (quad 172 16 0 5),
              Some OSError);
             (sock_close, None)]).
Proof.
  apply (failed_join_is_fatal default
           [datagram (Scenario.from (quad 192 168 1 50) [x01] 5353)]
           (Faults.join_fails (quad 172 16 0 5) OSError
                              [Scenario.A; Scenario.C; Scenario.B])
           [Scenario.A] Scenario.C [Scenario.B] OSError).
  - reflexivity.
  - repeat constructor. discriminate.
  - intros h c Hc. destruct c; try reflexivity.
    unfold Faults.join_fails. cbn [oracle].
    destruct (Z.eqb_spec ip0 (quad 172 16 0 5)) as [->|]; [|reflexivity].
    exfalso. apply (Hc group). reflexivity.
  - intros h g. reflexivity.
Defined.

(** ** An agency in any environment *)

Lemma for_forwardto_shape (self : MDNSAgency.t) (net : IPv4Network)
      (targets : list Z) :
  IPv4Network_host (source_address (MDNSAgency._data self)) = Some net ->
  tri any_world (MDNSAgency.for_forwardto self net targets)
      (send_loop_trace self targets).
Proof.
  intros Hnet. induction targets as [|t rest IH]; cbn [MDNSAgency.for_forwardto].
  - apply tri_ret. left. split; reflexivity.
  - rewrite (IPv4Network_host_eq t). cbn [lift].
    assert (Hsame : network_eqb net
                      {| network_address := Z.land t _ALL_ONES;
                         netmask := _ALL_ONES; _prefixlen := 32 |}
                    = same_host_network (source_address (MDNSAgency._data self)) t).
    { unfold same_host_network. now rewrite Hnet, (IPv4Network_host_eq t). }
    apply (tri_bind _ any_world_extend), tri_ret. cbn [app].
    rewrite Hsame.
    destruct (same_host_network (source_address (MDNSAgency._data self)) t)
      eqn:Hst; cbn [negb].
    + apply (tri_bind _ any_world_extend), tri_ret. cbn [app].
      eapply tri_conseq; [exact IH|]. intros r sends Hs.
      unfold send_loop_trace in *. cbn [flat_map]. unfold send_events at 1.
      rewrite Hst. cbn [app].
      destruct Hs as [Hs | (pre & t' & post & e & -> & Hn & -> & ->)];
        [left; exact Hs|].
      right. exists (t :: pre), t', post, e. repeat split; [exact Hn|].
      cbn [flat_map]. unfold send_events at 2. now rewrite Hst.
    + apply (tri_bind _ any_world_extend), (tri_bind _ any_world_extend), tri_sys.
      intros w _. destruct (oracle w (trace w) _) as [e|]; cbn [outcome].
      * right. exists [], t, rest, e. repeat split. exact Hst.
      * apply tri_emit. eapply tri_conseq; [exact IH|]. intros r sends Hs.
        unfold send_loop_trace in *. cbn [flat_map]. unfold send_events at 1.
        rewrite Hst. cbn [app].
        destruct Hs as [[-> ->] | (pre & t' & post & e & -> & Hn & -> & ->)].
        -- left. split; reflexivity.
        -- right. exists (t :: pre), t', post, e. repeat split; [exact Hn|].
           cbn [flat_map]. unfold send_events at 2. now rewrite Hst.
Qed.

(** Whatever the environment does, an agency's [start] ends with a trace of
    one of the two shapes of [start_trace]. *)
Lemma start_shape (self : MDNSAgency.t) :
  tri any_world (MDNSAgency.start self) (start_trace self).
Proof.
  unfold MDNSAgency.start. apply (tri_with_socket _ any_world_extend).
  intros w0 _. destruct (oracle w0 (trace w0) sock_socket) as [e|].
  { right. exists [], sock_socket, (tl (agency_setup self)), e.
    repeat split. }
  apply (tri_bind _ any_world_extend), tri_sys. intros w1 _.
  destruct (oracle w1 (trace w1) _) as [e|]; cbn [outcome].
  { right. exists [(sock_socket, None)], sock_setsockopt_REUSEADDR,
      (tl (tl (agency_setup self))), e. repeat split. }
  apply (tri_bind _ any_world_extend), tri_sys. intros w2 _.
  destruct (oracle w2 (trace w2) _) as [e|]; cbn [outcome].
  { right. exists [(sock_socket, None); (sock_setsockopt_REUSEADDR, None)],
      (sock_setsockopt_MULTICAST_TTL 1),
      (tl (tl (tl (agency_setup self)))), e. repeat split. }
  apply (tri_bind _ any_world_extend), tri_sys. intros w3 _.
  destruct (oracle w3 (trace w3) _) as [e|]; cbn [outcome].
  { right. exists [(sock_socket, None); (sock_setsockopt_REUSEADDR, None);
                   (sock_setsockopt_MULTICAST_TTL 1, None)],
      (sock_bind (MDNSAgency._ip self) (MDNSAgency._port self)),
      (tl (tl (tl (tl (agency_setup self))))), e. repeat split. }
  apply (tri_bind _ any_world_extend), tri_sys. intros w4 _.
  destruct (oracle w4 (trace w4) _) as [e|]; cbn [outcome].
  { right. exists [(sock_socket, None); (sock_setsockopt_REUSEADDR, None);
                   (sock_setsockopt_MULTICAST_TTL 1, None);
                   (sock_bind (MDNSAgency._ip self) (MDNSAgency._port self), None)],
      (sock_settimeout (MDNSAgency._timeout self)), [], e. repeat split. }
  rewrite IPv4Network_host_eq. cbn [lift].
  apply (tri_bind _ any_world_extend), tri_ret. cbn [app].
  eapply tri_conseq; [apply for_forwardto_shape, IPv4Network_host_eq|].
  intros r sends Hs. left. exists sends. split; [exact Hs | reflexivity].
Qed.

Lemma logged_app (a b : list event) : logged (a ++ b) = logged a ++ logged b.
Proof. apply flat_map_app. Qed.

Lemma opened_app (a b : list event) : (opened (a ++ b) = opened a + opened b)%nat.
Proof. unfold opened. now rewrite filter_app, length_app. Qed.

Lemma closed_app (a b : list event) : (closed (a ++ b) = closed a + closed b)%nat.
Proof. unfold closed. now rewrite filter_app, length_app. Qed.

Lemma sendto_is_attempt (l pre post : list event) (d : bytes) (t p : Z)
      (o : option exn) :
  l = pre ++ (sock_sendto d t p, o) :: post -> attempts l <> [].
Proof.
  intros -> H. rewrite attempts_app in H. apply app_eq_nil in H as [_ H].
  discriminate.
Qed.

(** The readings of the two shapes. *)

Lemma sendable_app (self : MDNSAgency.t) (pre : list Z) (t : Z) (post : list Z) :
  MDNSAgency._forwardto self = pre ++ t :: post ->
  same_host_network (source_address (MDNSAgency._data self)) t = false ->
  sendable self =
  filter (fun x => negb (same_host_network
                           (source_address (MDNSAgency._data self)) x)) pre
  ++ t :: filter (fun x => negb (same_host_network
                                   (source_address (MDNSAgency._data self)) x)) post.
Proof.
  intros Hf Ht. unfold sendable. rewrite Hf, filter_app. cbn [filter].
  now rewrite Ht.
Qed.

Lemma failed_setup_is_silent (self : MDNSAgency.t) (pre : list event) (c : call)
      (post : list event) (e : exn) :
  agency_setup self = pre ++ (c, None) :: post ->
  let new := pre ++ (c, Some e) ::
                 match pre with [] => [] | _ :: _ => [(sock_close, None)] end in
  attempts new = [] /\ datagrams new = [] /\ logged new = [] /\
  opened new = closed new.
Proof.
  intros H. unfold agency_setup in H.
  destruct pre as [|x1 [|x2 [|x3 [|x4 [|x5 pre]]]]]; cbn [app] in H;
    inversion H; subst; clear H;
    try (repeat split; reflexivity).
  exfalso. destruct pre; discriminate.
Qed.

(** X9.  An agency's socket is ready before anything is sent on it: every
    [sendto] comes after the five setup calls, none of which raised, among
    them setting the multicast TTL to 1 and binding to the interface's own
    address and the proxy's port. *)
Theorem send_follows_setup :
  forall (self : MDNSAgency.t) (w w' : world) (r : result unit)
         (pre post : list event) (d : bytes) (t p : Z) (o : option exn),
    MDNSAgency.start self w = (r, w') ->
    trace w' = trace w ++ pre ++ (sock_sendto d t p, o) :: post ->
    exists rest,
      pre = [(sock_socket, None);
             (sock_setsockopt_REUSEADDR, None);
             (sock_setsockopt_MULTICAST_TTL 1, None);
             (sock_bind (MDNSAgency._ip self) (MDNSAgency._port self), None);
             (sock_settimeout (MDNSAgency._timeout self), None)] ++ rest.
Proof.
  intros self w w' r pre post d t p o Hs Htr.
  destruct (start_shape self w I) as (r0 & new & Hs0 & Hshape).
  rewrite Hs in Hs0. injection Hs0 as _ Hw'. rewrite Hw' in Htr.
  cbn [extend trace] in Htr. apply app_inv_head in Htr.
  destruct Hshape as [(sends & _ & Hnew) | (pre0 & c & post0 & e & Hset & _ & Hnew)].
  - rewrite Hnew in Htr. unfold agency_setup in Htr.
    destruct pre as [|x1 [|x2 [|x3 [|x4 [|x5 rest]]]]]; cbn [app] in Htr;
      try discriminate.
    injection Htr as <- <- <- <- <- _. exists rest. reflexivity.
  - exfalso. apply (sendto_is_attempt _ _ _ _ _ _ _ Htr).
    rewrite Hnew. apply (failed_setup_is_silent self pre0 c post0 e Hset).
Qed.

Lemma send_follows_setup_witness :
  let self := new_agency default (Scenario.from (quad 192 168 1 50) [x01] 5353)
                         Scenario.A2 in
  exists rest,
    [(sock_socket, @None exn);
     (sock_setsockopt_REUSEADDR, None);
     (sock_setsockopt_MULTICAST_TTL 1, None);
     (sock_bind (quad 10 0 0 5) 5353, None);
     (sock_settimeout 5, None);
     (sock_sendto [x01] (quad 10 0 0 1) 5353, None);
     (log_SEND (quad 10 0 0 5) (quad 10 0 0 1) 5353 [x01], None)] =
    [(sock_socket, None);
     (sock_setsockopt_REUSEADDR, None);
     (sock_setsockopt_MULTICAST_TTL 1, None);
     (sock_bind (quad 10 0 0 5) 5353, None);
     (sock_settimeout 5, None)] ++ rest.
Proof.
  refine (send_follows_setup
            (new_agency default (Scenario.from (quad 192 168 1 50) [x01] 5353)
                        Scenario.A2)
            (Scenario.calm []) _ (Ok tt) _
            [(log_SEND (quad 10 0 0 5) (quad 10 0 0 2) 5353 [x01], None);
             (sock_close, None)]
            [x01] (quad 10 0 0 2) 5353 None _ _).
  - reflexivity.
  - reflexivity.
Defined.

(** X10.  Whatever raises, an agency tries its targets in the order of
    [_forwardto], leaving out only those that are the source, without gaps:
    the datagrams sent go to the first [j] such targets, and at most the
    next one was tried and raised.  When [start] ends normally, every such
    target got its datagram. *)
Theorem targets_tried_in_order :
  forall (self : MDNSAgency.t) (w : world),
    let F := fun t => (payload (MDNSAgency._data self), t, MDNSAgency._port self) in
    exists r new j,
      MDNSAgency.start self w = (r, extend w new) /\
      datagrams new = map F (firstn j (sendable self)) /\
      (attempts new = firstn j (sendable self) \/
       attempts new = firstn (S j) (sendable self)) /\
      (r = Ok tt -> datagrams new = map F (sendable self)).
Proof.
  intros self w F.
  destruct (start_shape self w I) as (r & new & Hs & Hshape).
  destruct Hshape as [(sends & Hloop & ->) | (pre0 & c & post0 & e & Hset & -> & ->)].
  - assert (Hd : datagrams (agency_setup self ++ sends ++ [(sock_close, None)])
                 = datagrams sends).
    { rewrite !datagrams_app. cbn. apply app_nil_r. }
    assert (Ha : attempts (agency_setup self ++ sends ++ [(sock_close, None)])
                 = attempts sends).
    { rewrite !attempts_app. cbn. apply app_nil_r. }
    destruct Hloop as [[-> ->] | (pre & t & post & e & Hf & Ht & -> & ->)].
    + exists (Ok tt). eexists. exists (length (sendable self)).
      split; [exact Hs|]. rewrite Hd, Ha, firstn_all.
      rewrite datagrams_send_events, attempts_send_events.
      repeat split; auto.
    + set (f := fun x => negb (same_host_network
                                 (source_address (MDNSAgency._data self)) x)).
      exists (Raise e). eexists. exists (length (filter f pre)).
      split; [exact Hs|]. rewrite Hd, Ha.
      rewrite datagrams_app, attempts_app, datagrams_send_events,
        attempts_send_events.
      rewrite (sendable_app self pre t post Hf Ht). fold f.
      cbn [datagrams attempts flat_map fst app]. rewrite app_nil_r.
      split; [|split; [right | discriminate]].
      * rewrite <- (Nat.add_0_r (length (filter f pre))) at 1.
        rewrite firstn_app_2. cbn [firstn]. now rewrite app_nil_r.
      * change (S (length (filter f pre))) with (1 + length (filter f pre))%nat.
        rewrite Nat.add_comm, firstn_app_2. reflexivity.
  - exists (Raise e). eexists. exists 0%nat. split; [exact Hs|].
    destruct (failed_setup_is_silent self pre0 c post0 e Hset) as (Ha & Hd & _).
    split; [exact Hd|]. split; [left; exact Ha | discriminate].
Qed.

(** ** Properties of traces that compose

    A property [Q] of event lists that holds of the empty list and is kept
    by concatenation holds of what the loop records as soon as it holds of
    what each agency records and of the [RECV] line. *)

Section Closed.

Variable E : world -> Prop.
Hypothesis E_extend : forall w new, E w -> E (extend w new).

Variable Q : list event -> Prop.
Hypothesis Q_nil : Q [].
Hypothesis Q_app : forall a b, Q a -> Q b -> Q (a ++ b).

Notation "'[[' m ']]'" := (tri E m (fun _ n => Q n)).

Lemma cl_ret {A} (a : A) : [[ ret a ]].
Proof. apply tri_ret, Q_nil. Qed.

Lemma cl_raise {A} (e : exn) : [[ @raise A e ]].
Proof. apply tri_raise, Q_nil. Qed.

Lemma cl_bind {A B} (m : M A) (k : A -> M B) :
  [[ m ]] -> (forall a, [[ k a ]]) -> [[ bind m k ]].
Proof.
  intros Hm Hk. apply (tri_bind _ E_extend).
  eapply tri_conseq; [exact Hm|]. intros [a|e] n1 H1; [|exact H1].
  eapply tri_conseq; [apply Hk|]. intros r2 n2 H2. apply Q_app; assumption.
Qed.

Lemma cl_sys (c : call) : (forall o, Q [(c, o)]) -> [[ sys c ]].
Proof. intros H. apply tri_sys. intros w _. apply H. Qed.

Lemma cl_emit (c : call) : Q [(c, None)] -> [[ emit c ]].
Proof. intros H. apply tri_emit. exact H. Qed.

Lemma cl_get_interfaces : [[ get_interfaces ]].
Proof. apply tri_get_interfaces. intros w _. apply Q_nil. Qed.

Lemma cl_try_except {A} (m : M A) (h : exn -> M A) :
  [[ m ]] -> (forall e, [[ h e ]]) -> [[ try_except m h ]].
Proof.
  intros Hm Hh. apply (tri_try_except _ E_extend).
  eapply tri_conseq; [exact Hm|]. intros [a|e] n1 H1; [exact H1|].
  eapply tri_conseq; [apply Hh|]. intros r2 n2 H2. apply Q_app; assumption.
Qed.

Lemma cl_for_agencies (ags : list MDNSAgency.t) :
  Forall (fun a => [[ MDNSAgency.start a ]]) ags -> [[ for_agencies ags ]].
Proof.
  induction 1 as [|a rest Ha _ IH]; cbn [for_agencies].
  - apply cl_ret.
  - apply cl_bind; [exact Ha | intros _; exact IH].
Qed.

Lemma cl_handle (self : MDNSProxy.t) (recieve : packet) :
  Q [(log_RECV (source_address recieve) (source_port recieve) (payload recieve),
      None)] ->
  (forall w l,
      E w ->
      for_interfaces self recieve (interfaces w) locals_init = Some l ->
      Forall (fun a => [[ MDNSAgency.start a ]]) (agencies l)) ->
  [[ handle self recieve ]].
Proof.
  intros Hlog Hags. unfold handle.
  apply (tri_bind _ E_extend), tri_get_interfaces. intros w Hw. cbn [app].
  destruct (for_interfaces self recieve (interfaces w) locals_init) as [l|] eqn:Hl;
    cbn [lift].
  - apply (tri_bind _ E_extend), tri_ret. cbn [app].
    destruct (local_network l && negb (same_address l)); [|apply cl_ret].
    apply cl_bind; [apply cl_emit, Hlog | intros _].
    apply cl_for_agencies. eapply Hags; eassumption.
  - apply (tri_bind _ E_extend), tri_raise. apply Q_nil.
Qed.

Lemma cl_iteration (self : MDNSProxy.t) (r : recvfrom_result) :
  (forall recieve, [[ handle self recieve ]]) ->
  [[ iteration self r ]].
Proof.
  intros Hh. unfold iteration. apply cl_try_except.
  - destruct r as [recieve|e]; cbn [recvfrom].
    + apply cl_bind; [apply cl_ret | intros p]. apply (Hh p).
    + apply (tri_bind _ E_extend), tri_raise. apply Q_nil.
  - intros []; [apply cl_ret | apply cl_raise | apply cl_raise].
Qed.

Lemma cl_while_True (self : MDNSProxy.t) (rs : list recvfrom_result) :
  (forall recieve, [[ handle self recieve ]]) ->
  [[ while_True self rs ]].
Proof.
  intros Hh. induction rs as [|r rest IH]; cbn [while_True].
  - apply cl_ret.
  - apply cl_bind; [apply cl_iteration, Hh | intros _; exact IH].
Qed.

Lemma cl_join_groups (self : MDNSProxy.t) (ifs : list interface) :
  (forall a o, Q [(sock_setsockopt_ADD_MEMBERSHIP (_multicast self) a, o)]) ->
  [[ join_groups self ifs ]].
Proof.
  intros Hj. induction ifs as [|i rest IH]; cbn [join_groups].
  - apply cl_ret.
  - apply cl_bind; [apply cl_sys, Hj | intros _; exact IH].
Qed.

(** The part of [MDNSProxy.start] inside its [with]. *)
Lemma cl_start_body (self : MDNSProxy.t) (rs : list recvfrom_result) :
  (forall o, Q [(sock_setsockopt_REUSEADDR, o)]) ->
  (forall o, Q [(sock_bind 0 (_port self), o)]) ->
  (forall a o, Q [(sock_setsockopt_ADD_MEMBERSHIP (_multicast self) a, o)]) ->
  (forall o, Q [(sock_settimeout (_timeout self), o)]) ->
  (forall recieve, [[ handle self recieve ]]) ->
  [[ sys sock_setsockopt_REUSEADDR ;;
     sys (sock_bind 0 (_port self)) ;;
     ifs <- get_interfaces ;;
     join_groups self ifs ;;
     sys (sock_settimeout (_timeout self)) ;;
     while_True self rs ]].
Proof.
  intros H1 H2 H3 H4 Hh.
  apply cl_bind; [apply cl_sys, H1 | intros _].
  apply cl_bind; [apply cl_sys, H2 | intros _].
  apply cl_bind; [apply cl_get_interfaces | intros ifs].
  apply cl_bind; [apply cl_join_groups, H3 | intros _].
  apply cl_bind; [apply cl_sys, H4 | intros _].
  apply cl_while_True, Hh.
Qed.

End Closed.

(** ** What the whole program keeps *)

Lemma send_events_readings (self : MDNSAgency.t) (l : list Z) :
  logged (flat_map (send_events self) l) = datagrams (flat_map (send_events self) l) /\
  opened (flat_map (send_events self) l) = 0%nat /\
  closed (flat_map (send_events self) l) = 0%nat.
Proof.
  induction l as [|t rest (IH1 & IH2 & IH3)]; [repeat split|].
  cbn [flat_map]. rewrite logged_app, datagrams_app, opened_app, closed_app.
  rewrite IH1, IH2, IH3. unfold send_events.
  destruct (same_host_network _ t); repeat split.
Qed.

Lemma send_loop_readings (self : MDNSAgency.t) (targets : list Z)
      (r : result unit) (sends : list event) :
  send_loop_trace self targets r sends ->
  logged sends = datagrams sends /\ opened sends = 0%nat /\ closed sends = 0%nat.
Proof.
  intros [[_ ->] | (pre & t & post & e & _ & _ & _ & ->)].
  - apply send_events_readings.
  - rewrite logged_app, datagrams_app, opened_app, closed_app.
    destruct (send_events_readings self pre) as (-> & -> & ->).
    repeat split.
Qed.

Lemma start_readings (self : MDNSAgency.t) (r : result unit) (new : list event) :
  start_trace self r new ->
  logged new = datagrams new /\ opened new = closed new.
Proof.
  intros [(sends & Hloop & ->) | (pre & c & post & e & Hset & _ & ->)].
  - destruct (send_loop_readings _ _ _ _ Hloop) as (Hl & Ho & Hc).
    rewrite !logged_app, !datagrams_app, !opened_app, !closed_app, Hl, Ho, Hc.
    split; reflexivity.
  - destruct (failed_setup_is_silent self pre c post e Hset) as (_ & Hd & Hl & Hb).
    split; [|exact Hb]. etransitivity; [exact Hl | symmetry; exact Hd].
Qed.

(** X11.  The log tells the truth about what was sent: over a whole run of
    [start], startup and loop, the [SEND] lines report exactly the datagrams
    that went out, in the same order; a [sendto] that raised leaves no
    line. *)
Theorem every_datagram_is_logged :
  forall (self : MDNSProxy.t) (rs : list recvfrom_result) (w : world),
    exists r new,
      start self rs w = (r, extend w new) /\
      logged new = datagrams new.
Proof.
  intros self rs w.
  set (Q := fun n : list event => logged n = datagrams n).
  assert (Q_app : forall a b, Q a -> Q b -> Q (a ++ b)).
  { unfold Q. intros a b Ha Hb. now rewrite logged_app, datagrams_app, Ha, Hb. }
  assert (Hh : forall recieve,
             tri any_world (handle self recieve) (fun _ n => Q n)).
  { intros recieve.
    apply (cl_handle _ any_world_extend Q eq_refl Q_app); [reflexivity|].
    intros w' l _ _. apply Forall_forall. intros a _.
    eapply tri_conseq; [apply start_shape|]. intros r n Hn.
    apply (start_readings a r n Hn). }
  assert (Hstart : tri any_world (start self rs) (fun _ n => Q n)).
  { unfold start.
    apply (cl_bind _ any_world_extend Q Q_app);
      [apply cl_sys; intros o; reflexivity | intros _].
    apply (cl_try_except _ any_world_extend Q Q_app).
    - apply (cl_start_body _ any_world_extend Q eq_refl Q_app);
        try (intros; reflexivity). exact Hh.
    - intros e. apply (cl_bind _ any_world_extend Q Q_app);
        [apply cl_emit; reflexivity | intros _; apply cl_raise; reflexivity]. }
  apply (Hstart w I).
Qed.

(** X7.  No socket is leaked.  Every agency closes the socket it opened,
    whatever raises, so over any run of the loop as many sockets are closed
    as were opened.  Over a run of [start] the only socket left open is the
    listening one, and only while the loop is still running: once an
    exception has ended [start], every socket opened has been closed. *)
Theorem sockets_balanced :
  forall (self : MDNSProxy.t) (rs : list recvfrom_result) (w : world),
    (exists r new,
        while_True self rs w = (r, extend w new) /\
        opened new = closed new) /\
    (exists r new,
        start self rs w = (r, extend w new) /\
        opened new =
        (closed new + match r with Ok _ => 1 | Raise _ => 0 end)%nat).
Proof.
  intros self rs.
  set (Q := fun n : list event => opened n = closed n).
  assert (Q_app : forall a b, Q a -> Q b -> Q (a ++ b)).
  { unfold Q. intros a b Ha Hb. now rewrite opened_app, closed_app, Ha, Hb. }
  assert (Hh : forall recieve,
             tri any_world (handle self recieve) (fun _ n => Q n)).
  { intros recieve.
    apply (cl_handle _ any_world_extend Q eq_refl Q_app); [reflexivity|].
    intros w' l _ _. apply Forall_forall. intros a _.
    eapply tri_conseq; [apply start_shape|]. intros r n Hn.
    apply (start_readings a r n Hn). }
  intros w. split.
  - apply (cl_while_True _ any_world_extend Q eq_refl Q_app self rs Hh w I).
  - pose proof (cl_start_body _ any_world_extend Q eq_refl Q_app self rs
                  (fun _ => eq_refl) (fun _ => eq_refl) (fun _ _ => eq_refl)
                  (fun _ => eq_refl) Hh) as Hbody.
    unfold start, try_except. unfold bind at 1, sys at 1.
    destruct (oracle w (trace w) sock_socket) as [e|].
    + exists (Raise e), [(sock_socket, Some e)]. split; reflexivity.
    + destruct (Hbody (record (sock_socket, None) w) I) as (r & n & Hb & HQ).
      rewrite Hb. rewrite record_extend, extend_extend. unfold Q in HQ.
      destruct r as [u|e].
      * exists (Ok u), ([(sock_socket, None)] ++ n). split; [reflexivity|].
        rewrite opened_app, closed_app, HQ. cbn. lia.
      * exists (Raise e), ([(sock_socket, None)] ++ n ++ [(sock_close, None)]).
        split.
        -- unfold bind, emit, raise. now rewrite record_extend, extend_extend,
             <- app_assoc.
        -- rewrite !opened_app, !closed_app, HQ. cbn. lia.
Qed.

(** Every agency the loop builds is that of an eligible interface. *)
Lemma for_interfaces_agencies_eligible (self : MDNSProxy.t) (recieve : packet)
      (all : list interface) (ifs : list interface) :
  (forall i, In i ifs -> In i all) ->
  forall l l',
    for_interfaces self recieve ifs l = Some l' ->
    Forall (fun a => exists i, In i all /\
                               eligible (source_address recieve) i = true /\
                               a = new_agency self recieve i) (agencies l) ->
    Forall (fun a => exists i, In i all /\
                               eligible (source_address recieve) i = true /\
                               a = new_agency self recieve i) (agencies l').
Proof.
  induction ifs as [|i rest IH]; intros Hsub l l' H Hl.
  - injection H as <-. exact Hl.
  - rewrite for_interfaces_cons in H.
    destruct (own_address (source_address recieve) i).
    + injection H as <-. exact Hl.
    + destruct (_make_netmask (mask i)); [|discriminate].
      apply IH in H; [exact H | intros j Hj; apply Hsub; right; exact Hj |].
      cbn [agencies].
      destruct (eligible (source_address recieve) i) eqn:Hel; [|exact Hl].
      apply Forall_app. split; [exact Hl|].
      constructor; [|constructor].
      exists i. split; [apply Hsub; left; reflexivity | auto].
Qed.

Lemma start_trace_configured (ifs : list interface) (src port : Z)
      (i : interface) (self : MDNSAgency.t) (r : result unit) (new : list event) :
  In i ifs -> eligible src i = true ->
  MDNSAgency._ip self = ip i ->
  MDNSAgency._forwardto self = forwardto i ->
  MDNSAgency._port self = port ->
  start_trace self r new ->
  Forall (configured ifs src port) new.
Proof.
  intros Hin Hel Hip Hfw Hport.
  assert (Hbind : configured ifs src port
                    (sock_bind (MDNSAgency._ip self) (MDNSAgency._port self), None)).
  { split; [exact Hport | exists i; auto]. }
  assert (Hsend : forall t o, In t (forwardto i) ->
             configured ifs src port
               (sock_sendto (payload (MDNSAgency._data self)) t
                            (MDNSAgency._port self), o)).
  { intros t o Ht. split; [exact Hport | exists i; auto]. }
  assert (Hevents : forall l, (forall t, In t l -> In t (forwardto i)) ->
             Forall (configured ifs src port) (flat_map (send_events self) l)).
  { induction l as [|t rest IH]; intros Hl; [constructor|].
    cbn [flat_map]. apply Forall_app. split.
    - unfold send_events. destruct (same_host_network _ t); [constructor|].
      constructor; [apply Hsend, Hl; left; reflexivity|].
      constructor; [exact I | constructor].
    - apply IH. intros x Hx. apply Hl. right. exact Hx. }
  intros [(sends & Hloop & ->) | (pre & c & post & e & Hset & _ & ->)].
  - apply Forall_app. split.
    + unfold agency_setup. repeat (constructor; [first [exact Hbind | exact I]|]).
      constructor.
    + apply Forall_app. split; [|constructor; [exact I | constructor]].
      destruct Hloop as [[_ ->] | (p0 & t & q0 & e & Hf & _ & _ & ->)].
      * apply Hevents. intros t Ht. now rewrite <- Hfw.
      * apply Forall_app. split.
        -- apply Hevents. intros x Hx. rewrite <- Hfw, Hf.
           apply in_or_app. left. exact Hx.
        -- constructor; [|constructor]. apply Hsend.
           rewrite <- Hfw, Hf. apply in_or_app. right. left. reflexivity.
  - unfold agency_setup in Hset.
    destruct pre as [|x1 [|x2 [|x3 [|x4 [|x5 pre]]]]]; cbn [app] in Hset;
      inversion Hset; subst; clear Hset;
      try (repeat (constructor; [first [exact Hbind | exact I
                                       | split; [exact Hport | exists i; auto]]|]);
           constructor).
    exfalso. destruct pre; discriminate.
Qed.

(** X8.  Handling a datagram talks only to configured places.  Every
    [sendto] goes to the proxy's port, to a forward target of an interface
    of the list that is eligible for the packet ((a) or (b)); every sender
    socket is bound to the proxy's port on the own address of such an
    interface.  This holds whatever raises. *)
Theorem sends_only_as_configured :
  forall (self : MDNSProxy.t) (recieve : packet) (w : world),
    let src := source_address recieve in
    exists r new,
      iteration self (datagram recieve) w = (r, extend w new) /\
      (forall d t p o,
          In (sock_sendto d t p, o) new ->
          p = _port self /\
          exists i, In i (interfaces w) /\ eligible src i = true /\
                    In t (forwardto i)) /\
      (forall a p o,
          In (sock_bind a p, o) new ->
          p = _port self /\
          exists i, In i (interfaces w) /\ eligible src i = true /\ a = ip i).
Proof.
  intros self recieve w src.
  set (E := fun w' : world => interfaces w' = interfaces w).
  assert (E_extend : forall w' new, E w' -> E (extend w' new))
    by (intros w' new H; exact H).
  set (Q := Forall (configured (interfaces w) src (_port self))).
  assert (Q_app : forall a b, Q a -> Q b -> Q (a ++ b)).
  { intros a b Ha Hb. apply Forall_app. split; assumption. }
  assert (Hh : tri E (handle self recieve) (fun _ n => Q n)).
  { apply (cl_handle _ E_extend Q (Forall_nil _) Q_app).
    - constructor; [exact I | constructor].
    - intros w' l Hw' Hl. rewrite Hw' in Hl.
      pose proof (for_interfaces_agencies_eligible self recieve (interfaces w)
                    (interfaces w) (fun i H => H) _ _ Hl (Forall_nil _)) as Hags.
      eapply Forall_impl; [|exact Hags].
      intros a (i & Hin & Hel & ->).
      eapply tri_conseq; [intros w0 _; apply (start_shape _ w0 I)|].
      intros r n Hn.
      apply (start_trace_configured _ _ _ i (new_agency self recieve i) r n
               Hin Hel eq_refl eq_refl eq_refl Hn). }
  assert (Hit : tri E (iteration self (datagram recieve)) (fun _ n => Q n)).
  { unfold iteration. apply (cl_try_except _ E_extend Q Q_app).
    - cbn [recvfrom]. apply (tri_bind _ E_extend), tri_ret. exact Hh.
    - intros []; [apply cl_ret | apply cl_raise | apply cl_raise];
        apply Forall_nil. }
  destruct (Hit w eq_refl) as (r & new & Hrun & HQ).
  exists r, new. split; [exact Hrun|]. unfold Q in HQ.
  rewrite Forall_forall in HQ. split.
  - intros d t p o Hin. apply (HQ _ Hin).
  - intros a p o Hin. apply (HQ _ Hin).
Qed.
